(** * Furigana engine: chunk splitting, annotation merge, repeat suppression

    A shallow embedding of the text engine of the Yahoo! furigana client:
    - [utils/furiganaApi]: two variants live in the repository, the
      byte-budget one (module [FuriganaApi]) and the older line-based one
      that talks to the service through axios (module [FuriganaApiAxios]);
    - [utils/furiganaProcessor]: the class [FuriganaProcessor] (module
      [FuriganaProcessor]) and the merge loops of its earlier copy (module
      [FuriganaProcessorPrototype]).

    JavaScript strings are sequences of UTF-16 code units; they are modelled
    as [list N].  String literals of this file are written in UTF-8 and
    decoded to code units by [js].  Numbers are integers ([Z]), positions in
    a string are [nat], and [indexOf] answers [None] for -1.  The state of a
    processor is passed explicitly; the annotation service is a function
    that may fail. *)

From Stdlib Require Import ZArith NArith String Ascii.
From stdpp Require Import base list gmap.

Local Open Scope N_scope.

(** ** JavaScript strings *)

Abbreviation jsstring := (list N).
Abbreviation CodeUnit := N (only parsing).

(** Decoding of a UTF-8 byte sequence into UTF-16 code units (what the
    JavaScript engine does when it reads a source literal). *)
Fixpoint utf16_of_utf8 (bs : list N) : jsstring :=
  match bs with
  | [] => []
  | b0 :: r0 =>
      if b0 <? 0x80 then b0 :: utf16_of_utf8 r0
      else if b0 <? 0xE0 then
        match r0 with
        | b1 :: r1 =>
            N.lor (N.shiftl (N.land b0 0x1F) 6) (N.land b1 0x3F)
              :: utf16_of_utf8 r1
        | _ => [0xFFFD]
        end
      else if b0 <? 0xF0 then
        match r0 with
        | b1 :: b2 :: r2 =>
            N.lor (N.shiftl (N.land b0 0x0F) 12)
              (N.lor (N.shiftl (N.land b1 0x3F) 6) (N.land b2 0x3F))
              :: utf16_of_utf8 r2
        | _ => [0xFFFD]
        end
      else
        match r0 with
        | b1 :: b2 :: b3 :: r3 =>
            let cp :=
              N.lor (N.shiftl (N.land b0 0x07) 18)
                (N.lor (N.shiftl (N.land b1 0x3F) 12)
                   (N.lor (N.shiftl (N.land b2 0x3F) 6) (N.land b3 0x3F))) in
            let v := cp - 0x10000 in
            (0xD800 + N.shiftr v 10) :: (0xDC00 + N.land v 0x3FF)
              :: utf16_of_utf8 r3
        | _ => [0xFFFD]
        end
  end.

Definition js (s : string) : jsstring :=
  utf16_of_utf8 (map (fun a => N_of_ascii a) (list_ascii_of_string s)).
Arguments js s%_string.

(** The line feed, which has no spelling inside a literal. *)
Definition LF : CodeUnit := 10.

(** [if (s)] on a string: the empty string is the only falsy one. *)
Definition truthy (s : jsstring) : bool :=
  match s with [] => false | _ :: _ => true end.

(** [s === t] on strings. *)
Fixpoint strEq (s t : jsstring) : bool :=
  match s, t with
  | [], [] => true
  | a :: s', b :: t' => (a =? b) && strEq s' t'
  | _, _ => false
  end.

(** Does [hay] start with [needle]? *)
Fixpoint startsWith (needle hay : jsstring) : bool :=
  match needle, hay with
  | [], _ => true
  | _ :: _, [] => false
  | a :: needle', b :: hay' => (a =? b) && startsWith needle' hay'
  end.

(** Leftmost match of [needle] in [hay]; [k] is the offset of [hay] in the
    string being searched. *)
Fixpoint searchFrom (needle hay : jsstring) (k : nat) : option nat :=
  if startsWith needle hay then Some k
  else match hay with
       | [] => None
       | _ :: hay' => searchFrom needle hay' (S k)
       end.

(** [hay.indexOf(needle, position)]; [None] stands for [-1].  The position
    is clamped to the length, as ECMAScript prescribes. *)
Definition indexOf (hay needle : jsstring) (position : nat) : option nat :=
  let start := Nat.min position (length hay) in
  searchFrom needle (drop start hay) start.

(** [hay.includes(needle)]. *)
Definition includes (hay needle : jsstring) : bool :=
  match indexOf hay needle 0 with Some _ => true | None => false end.

(** [s.substring(a, b)] for [a <= b], and [s.substring(a)]. *)
Definition substring (s : jsstring) (a b : nat) : jsstring :=
  take (b - a) (drop a s).
Definition substringFrom (s : jsstring) (a : nat) : jsstring := drop a s.

(** [s.split(sep)] for a non-empty separator string: the scan of
    ECMAScript's split, one code unit at a time.  [skip] counts the code
    units of a matched separator still to be stepped over; a code unit that
    belongs to no separator goes to the part being collected, the first of
    the parts of the rest. *)
Fixpoint splitScan (sep : jsstring) (skip : nat) (s : jsstring)
  : list jsstring :=
  match s with
  | [] => [[]]
  | c :: s' =>
      match skip with
      | S n => splitScan sep n s'
      | O =>
          if startsWith sep s
          then [] :: splitScan sep (length sep - 1) s'
          else match splitScan sep 0 s' with
               | part :: parts => (c :: part) :: parts
               | [] => [[c]]
               end
      end
  end.

Definition split (s sep : jsstring) : list jsstring := splitScan sep 0 s.

(** [parts.join(sep)]. *)
Fixpoint join (parts : list jsstring) (sep : jsstring) : jsstring :=
  match parts with
  | [] => []
  | [p] => p
  | p :: rest => p ++ sep ++ join rest sep
  end.

(** White space and line terminators, the code units [trim] strips. *)
Definition isWhiteSpace (c : CodeUnit) : bool :=
  ((0x09 <=? c) && (c <=? 0x0D)) || (c =? 0x20) || (c =? 0xA0)
  || (c =? 0x1680) || ((0x2000 <=? c) && (c <=? 0x200A))
  || (c =? 0x2028) || (c =? 0x2029) || (c =? 0x202F) || (c =? 0x205F)
  || (c =? 0x3000) || (c =? 0xFEFF).

(** [s.trim().length === 0]. *)
Definition trimIsEmpty (s : jsstring) : bool := forallb isWhiteSpace s.

(** [/[一-龯]/.test(c)] on one code unit, and on a string. *)
Definition isKanji (c : CodeUnit) : bool := (0x4e00 <=? c) && (c <=? 0x9faf).
Definition hasKanji (s : jsstring) : bool := existsb isKanji s.

(** The page-break marker. *)
Definition pageBreak : jsstring := js "｛改頁｝".

(** ** utils/furiganaApi, byte-budget variant *)

Module FuriganaApi.

(** [new TextEncoder().encode(char).length] for a one-code-unit string: a
    lone surrogate is encoded as U+FFFD, three bytes. *)
Definition charLength (char : CodeUnit) : Z :=
  if char <? 0x80 then 1%Z else if char <? 0x800 then 2%Z else 3%Z.

(** The loop variables [chunks], [currentChunk], [currentLength]. *)
Record SplitState := {
  chunks : list jsstring;
  currentChunk : jsstring;
  currentLength : Z
}.

Definition flushIfFull (maxLength : Z) (st : SplitState) (char : CodeUnit)
  : SplitState :=
  if (currentLength st + charLength char >? maxLength)%Z
  then {| chunks := chunks st ++ [currentChunk st];
          currentChunk := []; currentLength := 0 |}
  else st.

Definition splitStep (maxLength : Z) (st : SplitState) (char : CodeUnit)
  : SplitState :=
  let st' := flushIfFull maxLength st char in
  {| chunks := chunks st';
     currentChunk := currentChunk st' ++ [char];
     currentLength := (currentLength st' + charLength char)%Z |}.

Definition splitLoop (maxLength : Z) (st : SplitState) (text : jsstring)
  : SplitState :=
  foldl (splitStep maxLength) st text.

Definition finish (st : SplitState) : list jsstring :=
  if truthy (currentChunk st) then chunks st ++ [currentChunk st]
  else chunks st.

Definition splitTextIntoChunks (text : jsstring) (maxLength : Z)
  : list jsstring :=
  finish (splitLoop maxLength
            {| chunks := []; currentChunk := []; currentLength := 0 |} text).

Definition defaultMaxLength : Z := 4000.

(** Word-level renderers. *)
Definition applyInkBracketRuby (surface furigana : jsstring) : jsstring :=
  surface ++ js "《" ++ furigana ++ js "》".

Definition applyXhtmlRuby (surface furigana : jsstring) : jsstring :=
  js "<ruby>" ++ surface ++ js "<rt>" ++ furigana ++ js "</rt></ruby>".

End FuriganaApi.

(** ** utils/furiganaApi, line-based variant (calls the service through axios) *)

Module FuriganaApiAxios.

Definition MAX_CHUNK_SIZE : nat := 4000.

(** The loop variables [chunks] and [currentChunk]. *)
Record SplitState := {
  chunks : list jsstring;
  currentChunk : jsstring
}.

(** The separators of the regular expression that cuts an oversized line:
    . 。 , 、 ! ！ ? ？ ( ) （ ） [ ] 「 」 『 』 *)
Definition isSeparator (c : CodeUnit) : bool :=
  (c =? 0x2E) || (c =? 0x3002) || (c =? 0x2C) || (c =? 0x3001)
  || (c =? 0x21) || (c =? 0xFF01) || (c =? 0x3F) || (c =? 0xFF1F)
  || (c =? 0x28) || (c =? 0x29) || (c =? 0xFF08) || (c =? 0xFF09)
  || (c =? 0x5B) || (c =? 0x5D) || (c =? 0x300C) || (c =? 0x300D)
  || (c =? 0x300E) || (c =? 0x300F).

(** [line.split(/([...])/)]: the capture group keeps every separator as a
    segment of its own. *)
Fixpoint splitKeepingSeparators (line : jsstring) : list jsstring :=
  match line with
  | [] => [[]]
  | c :: line' =>
      if isSeparator c
      then [] :: [c] :: splitKeepingSeparators line'
      else match splitKeepingSeparators line' with
           | segment :: segments => (c :: segment) :: segments
           | [] => [[c]]
           end
  end.

(** [currentChunk += (currentChunk ? '\n' : '') + line]. *)
Definition appendLine (currentChunk line : jsstring) : jsstring :=
  currentChunk ++ (if truthy currentChunk then [LF] else []) ++ line.

(** Push the current chunk and start a new one with [piece] when the sizes
    add up to more than the maximum; otherwise extend it with [extend]. *)
Definition pushOrExtend (extend : jsstring -> jsstring -> jsstring)
    (st : SplitState) (piece : jsstring) : SplitState :=
  if (MAX_CHUNK_SIZE <? length (currentChunk st) + length piece)%nat
  then {| chunks := chunks st ++ [currentChunk st]; currentChunk := piece |}
  else {| chunks := chunks st; currentChunk := extend (currentChunk st) piece |}.

(** The branch of a line that contains the page-break marker. *)
Definition pageBreakLine (st : SplitState) (line : jsstring) : SplitState :=
  let parts := split line pageBreak in
  let beforePageBreak := hd [] parts in
  let afterPageBreak := tl parts in
  let st1 :=
    if truthy beforePageBreak
    then pushOrExtend appendLine st beforePageBreak
    else st in
  let st2 :=
    if truthy (currentChunk st1)
    then {| chunks := chunks st1 ++ [currentChunk st1]; currentChunk := [] |}
    else st1 in
  let afterPageBreakText := join afterPageBreak pageBreak in
  if truthy afterPageBreakText
  then {| chunks := chunks st2; currentChunk := afterPageBreakText |}
  else st2.

Definition lineStep (st : SplitState) (line : jsstring) : SplitState :=
  if includes line pageBreak then pageBreakLine st line
  else if (MAX_CHUNK_SIZE <? length line)%nat then
    foldl (pushOrExtend (fun currentChunk segment => currentChunk ++ segment))
      st (splitKeepingSeparators line)
  else pushOrExtend appendLine st line.

Definition splitTextIntoChunks (text : jsstring) : list jsstring :=
  let st := foldl lineStep {| chunks := []; currentChunk := [] |}
              (split text [LF]) in
  if truthy (currentChunk st) then chunks st ++ [currentChunk st]
  else chunks st.

(** Per-character renderers: the i-th kanji of the word gets the i-th code
    unit of the reading, between [opening] and [closing]. *)
Fixpoint perCharacter (opening closing : jsstring -> jsstring)
    (furigana word : jsstring) (kanjiIndex : nat) : jsstring :=
  match word with
  | [] => []
  | char :: word' =>
      if isKanji char then
        match furigana !! kanjiIndex with
        | Some f =>
            opening [char] ++ closing [f]
              ++ perCharacter opening closing furigana word' (S kanjiIndex)
        | None => char :: perCharacter opening closing furigana word' kanjiIndex
        end
      else char :: perCharacter opening closing furigana word' kanjiIndex
  end.

Definition applyInkBracketRuby (word furigana : jsstring) : jsstring :=
  if negb (truthy furigana) || strEq word furigana then word
  else perCharacter (fun char => char ++ js "【") (fun f => f ++ js "】")
         furigana word 0.

Definition applyXhtmlRuby (word furigana : jsstring) : jsstring :=
  if negb (truthy furigana) || strEq word furigana then word
  else perCharacter (fun char => js "<ruby>" ++ char ++ js "<rt>")
         (fun f => f ++ js "</rt></ruby>") furigana word 0.

End FuriganaApiAxios.

(** ** utils/furiganaProcessor *)

Module SubWord.
Record t := {
  surface : jsstring;
  furigana : option jsstring;
  roman : option jsstring
}.
End SubWord.

Record Word := {
  surface : jsstring;
  furigana : option jsstring;
  roman : option jsstring;
  subword : option (list SubWord.t)
}.

(** ['墨つき括弧' | 'XHTML'] *)
Inductive RubyStyle := InkBracket | XHTML.

(** [interface SkipInfo { [kanji: string]: number }]: the keys are one-code-unit
    strings. *)
Abbreviation SkipInfo := (gmap N Z).

(** An optional string that is present and not empty ([if (word.furigana)]). *)
Definition reading (furigana : option jsstring) : option jsstring :=
  match furigana with
  | Some (c :: f) => Some (c :: f)
  | _ => None
  end.

(** The two variables of the merge loops. *)
Record Cursor := {
  result : jsstring;
  currentPos : nat
}.

(** The mutable part of a [FuriganaProcessor], and the texts it has sent to
    the service so far (the main request of [processChunk]). *)
Record Processor := {
  skipInfo : SkipInfo;
  requests : list jsstring
}.

Module FuriganaProcessor.
Section WithConfig.

(** The constructor's arguments.  The skip length is a number: the page
    reads it with [parseInt], and NaN (which the first copy of the form
    passes on for an empty field) is not a value of this model. *)
Variable clientId : jsstring.
Variable skipLength : Z.
Variable grade : N.
Variable rubyStyle : RubyStyle.

(** The annotation service behind [requestFurigana]: given the number of
    requests made before, the text, the client id and the grade it answers
    with the words of [response.result.word], or fails ([None]: the promise
    rejects). *)
Variable requestFurigana : nat -> jsstring -> jsstring -> N -> option (list Word).

Definition shouldSkipRuby (skipInfo : SkipInfo) (surface : jsstring) : bool :=
  if negb (hasKanji surface) then false
  else existsb
         (fun char =>
            isKanji char &&
            match skipInfo !! char with
            | Some count => (0 <? count)%Z
            | None => false
            end) surface.

Definition updateSkipInfo (skipInfo : SkipInfo) (surface : jsstring) : SkipInfo :=
  if (skipLength <=? 0)%Z then skipInfo
  else foldl (fun info char =>
                if isKanji char then <[char := skipLength]> info else info)
         skipInfo surface.

Definition decrementSkipCounts (skipInfo : SkipInfo) : SkipInfo :=
  (fun count => if (0 <? count)%Z then (count - 1)%Z else count) <$> skipInfo.

Definition applyRuby (surface furigana : jsstring) : jsstring :=
  match rubyStyle with
  | InkBracket => FuriganaApi.applyInkBracketRuby surface furigana
  | XHTML => FuriganaApi.applyXhtmlRuby surface furigana
  end.

(** Ruby for one surface with a reading, unless the repeat rule skips it. *)
Definition glossOrSkip (skipInfo : SkipInfo) (surface furigana : jsstring)
  : jsstring * SkipInfo :=
  if shouldSkipRuby skipInfo surface then (surface, skipInfo)
  else (applyRuby surface furigana, updateSkipInfo skipInfo surface).

(** The text between the cursor and a match, when there is some. *)
Definition withGap (text : jsstring) (cur : Cursor) (startPos : nat) : jsstring :=
  if (currentPos cur <? startPos)%nat
  then result cur ++ substring text (currentPos cur) startPos
  else result cur.

(** The text after the cursor, when there is some. *)
Definition withRest (text : jsstring) (cur : Cursor) : jsstring :=
  if (currentPos cur <? length text)%nat
  then result cur ++ substringFrom text (currentPos cur)
  else result cur.

Definition subwordStep (wordSurface : jsstring) (acc : Cursor * SkipInfo)
    (sub : SubWord.t) : Cursor * SkipInfo :=
  let '(cur, skipInfo) := acc in
  match indexOf wordSurface (SubWord.surface sub) (currentPos cur) with
  | None => acc
  | Some startPos =>
      let '(piece, skipInfo') :=
        match reading (SubWord.furigana sub) with
        | Some furigana => glossOrSkip skipInfo (SubWord.surface sub) furigana
        | None => (SubWord.surface sub, skipInfo)
        end in
      ({| result := withGap wordSurface cur startPos ++ piece;
          currentPos := (startPos + length (SubWord.surface sub))%nat |},
       skipInfo')
  end.

Definition applyRubyToWord (skipInfo : SkipInfo) (word : Word)
  : jsstring * SkipInfo :=
  match reading (furigana word) with
  | None => (surface word, skipInfo)
  | Some furigana =>
      match subword word with
      | Some (sub :: subs) =>
          let '(cur, skipInfo') :=
            foldl (subwordStep (surface word))
              ({| result := []; currentPos := 0 |}, skipInfo) (sub :: subs) in
          (withRest (surface word) cur, skipInfo')
      | _ => glossOrSkip skipInfo (surface word) furigana
      end
  end.

Definition wordStep (originalText : jsstring) (acc : Cursor * SkipInfo)
    (word : Word) : Cursor * SkipInfo :=
  let '(cur, skipInfo) := acc in
  let '(processedWord, skipInfo') := applyRubyToWord skipInfo word in
  match indexOf originalText (surface word) (currentPos cur) with
  | None => (cur, skipInfo')
  | Some startPos =>
      ({| result := withGap originalText cur startPos ++ processedWord;
          currentPos := (startPos + length (surface word))%nat |},
       skipInfo')
  end.

Definition applyRubyFromResponse (skipInfo : SkipInfo) (words : list Word)
    (originalText : jsstring) : jsstring * SkipInfo :=
  let '(cur, skipInfo') :=
    foldl (wordStep originalText)
      ({| result := []; currentPos := 0 |}, skipInfo) words in
  (withRest originalText cur, skipInfo').

(** [processChunk]: [None] in the first component when it throws. *)
Definition processChunk (this : Processor) (chunk : jsstring)
  : option jsstring * Processor :=
  if trimIsEmpty chunk then (Some chunk, this)
  else
    let sent := {| skipInfo := skipInfo this;
                   requests := requests this ++ [chunk] |} in
    match requestFurigana (length (requests this)) chunk clientId grade with
    | None => (None, sent)
    | Some words =>
        let '(processed, skipInfo') :=
          applyRubyFromResponse (skipInfo this) words chunk in
        (Some processed, {| skipInfo := skipInfo'; requests := requests sent |})
    end.

(** [try { result += await this.processChunk(text) } catch { result += text }] *)
Definition tryProcessChunk (acc : jsstring * Processor) (text : jsstring)
  : jsstring * Processor :=
  let '(result, this) := acc in
  match processChunk this text with
  | (Some processed, this') => (result ++ processed, this')
  | (None, this') => (result ++ text, this')
  end.

(** After a part that is not the last: the marker, and an empty table. *)
Definition crossPageBreak (acc : jsstring * Processor) : jsstring * Processor :=
  let '(result, this) := acc in
  (result ++ pageBreak, {| skipInfo := ∅; requests := requests this |}).

(** The loop over the parts of a chunk that contains the marker. *)
Fixpoint processParts (acc : jsstring * Processor) (parts : list jsstring)
  : jsstring * Processor :=
  match parts with
  | [] => acc
  | part :: rest =>
      let acc1 := if truthy part then tryProcessChunk acc part else acc in
      match rest with
      | [] => acc1
      | _ :: _ => processParts (crossPageBreak acc1) rest
      end
  end.

(** The body of the loop over the chunks. *)
Definition chunkStep (acc : jsstring * Processor) (chunk : jsstring)
  : jsstring * Processor :=
  if includes chunk pageBreak
  then processParts acc (split chunk pageBreak)
  else tryProcessChunk acc chunk.

Definition processChunks (acc : jsstring * Processor) (chunks : list jsstring)
  : jsstring * Processor :=
  foldl chunkStep acc chunks.

Definition process (this : Processor) (text : jsstring) : jsstring * Processor :=
  processChunks ([], this)
    (FuriganaApi.splitTextIntoChunks text FuriganaApi.defaultMaxLength).

End WithConfig.

(** A processor as the constructor leaves it. *)
Definition new : Processor := {| skipInfo := ∅; requests := [] |}.

End FuriganaProcessor.

(** ** The earlier copy of utils/furiganaProcessor

    The repository also holds an earlier copy of the class.  Its two merge
    loops do not test the result of [indexOf]: positions are numbers that can
    be -1. *)

Module FuriganaProcessorPrototype.
Section WithConfig.

Variable skipLength : Z.
Variable rubyStyle : RubyStyle.

(** [hay.indexOf(needle, position)] as a number. *)
Definition indexOfNumber (hay needle : jsstring) (position : Z) : Z :=
  match indexOf hay needle (Z.to_nat position) with
  | Some startPos => Z.of_nat startPos
  | None => (-1)%Z
  end.

(** One round of either loop: the gap when the match lies after the cursor,
    then the piece, and the cursor set to [startPos + surface.length]. *)
Definition advance (text surface piece : jsstring) (acc : jsstring * Z)
  : jsstring * Z :=
  let '(result, currentPos) := acc in
  let startPos := indexOfNumber text surface currentPos in
  let result' :=
    if (currentPos <? startPos)%Z
    then result ++ substring text (Z.to_nat currentPos) (Z.to_nat startPos)
    else result in
  (result' ++ piece, (startPos + Z.of_nat (length surface))%Z).

Definition withRest (text : jsstring) (acc : jsstring * Z) : jsstring :=
  let '(result, currentPos) := acc in
  if (currentPos <? Z.of_nat (length text))%Z
  then result ++ substringFrom text (Z.to_nat currentPos)
  else result.

Definition subwordStep (wordSurface : jsstring)
    (acc : jsstring * Z * SkipInfo) (sub : SubWord.t)
  : jsstring * Z * SkipInfo :=
  let '(cursor, skipInfo) := acc in
  let '(piece, skipInfo') :=
    match reading (SubWord.furigana sub) with
    | Some furigana =>
        FuriganaProcessor.glossOrSkip skipLength rubyStyle skipInfo
          (SubWord.surface sub) furigana
    | None => (SubWord.surface sub, skipInfo)
    end in
  (advance wordSurface (SubWord.surface sub) piece cursor, skipInfo').

Definition applyRubyToWord (skipInfo : SkipInfo) (word : Word)
  : jsstring * SkipInfo :=
  match reading (furigana word) with
  | None => (surface word, skipInfo)
  | Some furigana =>
      match subword word with
      | Some (sub :: subs) =>
          let '(cursor, skipInfo') :=
            foldl (subwordStep (surface word)) ([], 0%Z, skipInfo)
              (sub :: subs) in
          (withRest (surface word) cursor, skipInfo')
      | _ =>
          FuriganaProcessor.glossOrSkip skipLength rubyStyle skipInfo
            (surface word) furigana
      end
  end.

Definition wordStep (originalText : jsstring)
    (acc : jsstring * Z * SkipInfo) (word : Word)
  : jsstring * Z * SkipInfo :=
  let '(cursor, skipInfo) := acc in
  let '(processedWord, skipInfo') := applyRubyToWord skipInfo word in
  (advance originalText (surface word) processedWord cursor, skipInfo').

Definition applyRubyFromResponse (skipInfo : SkipInfo) (words : list Word)
    (originalText : jsstring) : jsstring * SkipInfo :=
  let '(cursor, skipInfo') :=
    foldl (wordStep originalText) ([], 0%Z, skipInfo) words in
  (withRest originalText cursor, skipInfo').

End WithConfig.
End FuriganaProcessorPrototype.

(** ** The Yahoo service *)

Module Yahoo.

(** What is posted to the service, as far as an answer can depend on it:
    [params.q], [params.grade] and the User-Agent header (the [id] of the
    JSON-RPC envelope is left out). *)
Record Request := {
  q : jsstring;
  grade : Z;
  userAgent : jsstring
}.

(** [response.data], taken to be an object, as far as it is read: whether it
    has an [error] member, and [result.word] when it has one. *)
Record Data := {
  hasError : bool;
  word : option (list Word)
}.

(** How [axios.post] ends: it resolves, or it rejects with an
    [error.response], with an [error.request] only, or with neither. *)
Inductive Outcome :=
  | Resolved (data : Data)
  | RejectedWithResponse (status : Z)
  | RejectedWithoutResponse
  | RejectedOther (message : jsstring).

(** ['Yahoo AppID: ' + clientId] *)
Definition appId (clientId : jsstring) : jsstring :=
  js "Yahoo AppID: " ++ clientId.

End Yahoo.

(** ** pages/api/furigana

    The request body is taken as the client of this repository sends it: an
    object whose text and client id are strings and whose grade is a number;
    a member that is absent is [None].  Other bodies are not values of this
    model: a body that is [null], or a client id that is not a string, makes
    the [try] block throw before the request is posted, and the [catch]
    block answers 500. *)

Module ApiRoute.

Record Body := {
  text : option jsstring;
  clientId : option jsstring;
  grade : option Z
}.

Record Request := {
  method : jsstring;
  body : Body
}.

(** The [error] member of a reply; the second form stands for the template
    [`Yahoo API Error: ${statusCode}`]. *)
Inductive ErrorMessage :=
  | Message (message : jsstring)
  | YahooApiError (statusCode : Z).

(** What the handler sends: nothing ([end()]), the test page of GET,
    [{error, status, ...}] or [{result, status: 200}]. *)
Inductive Payload :=
  | NoPayload
  | TestPage
  | Failure (error : ErrorMessage)
  | Success (word : option (list Word)).

Record Reply := {
  status : Z;
  payload : Payload
}.

(** A run of the handler: it replies at once, or it posts one request to the
    service and replies from the outcome. *)
Inductive Run :=
  | Done (reply : Reply)
  | CallYahoo (request : Yahoo.Request) (andThen : Yahoo.Outcome -> Reply).

Definition fail (statusCode : Z) (error : ErrorMessage) : Reply :=
  {| status := statusCode; payload := Failure error |}.

(** The end of the [try] block, and the [catch] block. *)
Definition afterYahoo (outcome : Yahoo.Outcome) : Reply :=
  match outcome with
  | Yahoo.Resolved data =>
      {| status := 200%Z; payload := Success (Yahoo.word data) |}
  | Yahoo.RejectedWithResponse statusCode =>
      fail statusCode (YahooApiError statusCode)
  | Yahoo.RejectedWithoutResponse =>
      fail 500%Z (Message (js "No response from Yahoo API"))
  | Yahoo.RejectedOther message =>
      fail 500%Z
        (Message (if truthy message then message
                  else js "Request configuration error"))
  end.

Definition handler (req : Request) : Run :=
  if strEq (method req) (js "OPTIONS")
  then Done {| status := 200%Z; payload := NoPayload |}
  else if strEq (method req) (js "GET")
  then Done {| status := 200%Z; payload := TestPage |}
  else if negb (strEq (method req) (js "POST"))
  then Done (fail 405%Z (Message (js "Method Not Allowed")))
  else
    match reading (text (body req)) with
    | None =>
        Done (fail 400%Z (Message (js "Missing required parameter: text")))
    | Some text =>
        match reading (clientId (body req)) with
        | None =>
            Done (fail 400%Z
                    (Message (js "Missing required parameter: clientId")))
        | Some clientId =>
            (* grade = "1" when absent, and parseInt("1", 10) is 1 *)
            CallYahoo
              {| Yahoo.q := text;
                 Yahoo.grade := default 1%Z (grade (body req));
                 Yahoo.userAgent := Yahoo.appId clientId |}
              afterYahoo
        end
    end.

(** The route in front of a service: [yahoo n] is the outcome of the request
    that the route posts for the [n]-th main request of a run (the test
    request for 漢字 that [processChunk] sends first, and whose answer it does
    not use, is not counted). *)
Definition serve (yahoo : nat -> Yahoo.Request -> Yahoo.Outcome) (n : nat)
    (req : Request) : Reply :=
  match handler req with
  | Done reply => reply
  | CallYahoo request andThen => andThen (yahoo n request)
  end.

End ApiRoute.

(** ** utils/furiganaApi: [requestFurigana] through the route *)

Module FetchClient.

(** [response.ok] *)
Definition ok (response : ApiRoute.Reply) : bool :=
  (200 <=? ApiRoute.status response)%Z && (ApiRoute.status response <=? 299)%Z.

(** [response.json()], which rejects when there is no body. *)
Definition json (response : ApiRoute.Reply) : option ApiRoute.Payload :=
  match ApiRoute.payload response with
  | ApiRoute.NoPayload => None
  | data => Some data
  end.

(** [None] when it throws. *)
Definition requestFurigana (fetch : ApiRoute.Request -> ApiRoute.Reply)
    (text clientId : jsstring) (grade : N) : option ApiRoute.Payload :=
  let response :=
    fetch {| ApiRoute.method := js "POST";
             ApiRoute.body := {| ApiRoute.text := Some text;
                                 ApiRoute.clientId := Some clientId;
                                 ApiRoute.grade := Some (Z.of_N grade) |} |} in
  if negb (ok response) then None else json response.

(** [response.result.word] as [processChunk] reads it. *)
Definition resultWord (response : ApiRoute.Payload) : option (list Word) :=
  match response with
  | ApiRoute.Success (Some words) => Some words
  | _ => None
  end.

(** The service that a processor sees when it calls this client. *)
Definition service (yahoo : nat -> Yahoo.Request -> Yahoo.Outcome)
    (n : nat) (text clientId : jsstring) (grade : N) : option (list Word) :=
  match requestFurigana (ApiRoute.serve yahoo n) text clientId grade with
  | Some response => resultWord response
  | None => None
  end.

End FetchClient.

(** ** utils/furiganaApi: [requestFurigana] of the line-based copy, which
    posts to the service itself *)

Module AxiosClient.

(** [None] when it throws. *)
Definition requestFurigana (post : Yahoo.Request -> Yahoo.Outcome)
    (text clientId : jsstring) (grade : N) : option Yahoo.Data :=
  match post {| Yahoo.q := text; Yahoo.grade := Z.of_N grade;
                Yahoo.userAgent := Yahoo.appId clientId |} with
  | Yahoo.Resolved data => if Yahoo.hasError data then None else Some data
  | _ => None
  end.

(** The service that a processor sees when it calls this client. *)
Definition service (yahoo : nat -> Yahoo.Request -> Yahoo.Outcome)
    (n : nat) (text clientId : jsstring) (grade : N) : option (list Word) :=
  match requestFurigana (yahoo n) text clientId grade with
  | Some response => Yahoo.word response
  | None => None
  end.

End AxiosClient.

(** ** A test double for the annotation service *)

(** A dictionary-driven stand-in for the service: it reads the text from left
    to right, answers with a word for every dictionary surface it meets and
    passes over everything else.  [skip] counts the code units of a word just
    emitted that are still to be stepped over. *)
Fixpoint lookupPrefix (dict : list (jsstring * jsstring)) (text : jsstring)
  : option (jsstring * jsstring) :=
  match dict with
  | [] => None
  | (entrySurface, entryReading) :: dict' =>
      if truthy entrySurface && startsWith entrySurface text
      then Some (entrySurface, entryReading)
      else lookupPrefix dict' text
  end.

Fixpoint annotateWith (dict : list (jsstring * jsstring)) (skip : nat)
    (text : jsstring) : list Word :=
  match text with
  | [] => []
  | _ :: text' =>
      match skip with
      | S n => annotateWith dict n text'
      | O =>
          match lookupPrefix dict text with
          | Some (entrySurface, entryReading) =>
              {| surface := entrySurface; furigana := Some entryReading;
                 roman := None; subword := None |}
              :: annotateWith dict (length entrySurface - 1) text'
          | None => annotateWith dict 0 text'
          end
      end
  end.

Definition dictionary : list (jsstring * jsstring) :=
  [(js "漢字", js "かんじ"); (js "漢", js "かん"); (js "山", js "やま");
   (js "川", js "かわ"); (js "改頁", js "かいぺーじ")].

(** A service that always answers, and one that never does. *)
Definition mockService (n : nat) (text clientId : jsstring) (grade : N)
  : option (list Word) :=
  Some (annotateWith dictionary 0 text).

Definition failingService (n : nat) (text clientId : jsstring) (grade : N)
  : option (list Word) :=
  None.

(** A service that fails on its first request only. *)
Definition flakyService (n : nat) (text clientId : jsstring) (grade : N)
  : option (list Word) :=
  match n with
  | O => None
  | S _ => Some (annotateWith dictionary 0 text)
  end.

(** A Yahoo service that answers every request from the dictionary. *)
Definition dictionaryYahoo (n : nat) (request : Yahoo.Request) : Yahoo.Outcome :=
  Yahoo.Resolved
    {| Yahoo.hasError := false;
       Yahoo.word := Some (annotateWith dictionary 0 (Yahoo.q request)) |}.

(** A service that cuts the text into one-code-unit words and gives no
    reading for any of them. *)
Definition silentService (n : nat) (text clientId : jsstring) (grade : N)
  : option (list Word) :=
  Some (map (fun char => {| surface := [char]; furigana := None;
                            roman := None; subword := None |}) text).

(** ** Notions used in the statements *)

(** The alignment that the loop of [FuriganaProcessor.applyRubyFromResponse]
    computes, with the rendering of the words left out: the cursor walk
    alone.  A word found at or after the cursor is a gloss candidate,
    preceded by the text skipped over; a word that is not found leaves the
    cursor where it is.  [applyRubyFromResponse_merge] below shows that the
    method is the rendering of these runs. *)
Inductive AlignedRun :=
  | PlainCopy (text : jsstring)
  | GlossCandidate (word : Word)
  | AlignmentMiss (word : Word).

Fixpoint merge (originalText : jsstring) (currentPos : nat) (words : list Word)
  : list AlignedRun :=
  match words with
  | [] =>
      if (currentPos <? length originalText)%nat
      then [PlainCopy (substringFrom originalText currentPos)]
      else []
  | word :: words' =>
      match indexOf originalText (surface word) currentPos with
      | None => AlignmentMiss word :: merge originalText currentPos words'
      | Some startPos =>
          (if (currentPos <? startPos)%nat
           then [PlainCopy (substring originalText currentPos startPos)]
           else [])
          ++ GlossCandidate word
             :: merge originalText (startPos + length (surface word))%nat words'
      end
  end.

(** The text a run stands for in the chunk. *)
Definition runText (run : AlignedRun) : jsstring :=
  match run with
  | PlainCopy text => text
  | GlossCandidate word => surface word
  | AlignmentMiss _ => []
  end.

(** Rendering of the runs in order.  [applyRubyToWord] runs for every word,
    found or not, as in the source (it is called before the lookup). *)
Definition renderRun (skipLength : Z) (rubyStyle : RubyStyle)
    (acc : jsstring * SkipInfo) (run : AlignedRun) : jsstring * SkipInfo :=
  let '(result, skipInfo) := acc in
  match run with
  | PlainCopy text => (result ++ text, skipInfo)
  | GlossCandidate word =>
      let '(processedWord, skipInfo') :=
        FuriganaProcessor.applyRubyToWord skipLength rubyStyle skipInfo word in
      (result ++ processedWord, skipInfo')
  | AlignmentMiss word =>
      (result,
       snd (FuriganaProcessor.applyRubyToWord skipLength rubyStyle skipInfo word))
  end.

(** The byte length of a text as [FuriganaApi.splitTextIntoChunks] counts it:
    the sum of [charLength] over its code units.  For a text without
    surrogate pairs this is the length of its UTF-8 encoding. *)
Definition byteLength (text : jsstring) : Z :=
  foldr (fun char total => (FuriganaApi.charLength char + total)%Z) 0%Z text.

(** What the loop of [FuriganaApi.splitTextIntoChunks] keeps true when every
    single character fits the budget: the counter is the byte length of the
    chunk being filled, that chunk fits, and the chunks pushed so far fit and
    are not empty. *)
Definition withinBudget (maxLength : Z) (st : FuriganaApi.SplitState) : Prop :=
  FuriganaApi.currentLength st = byteLength (FuriganaApi.currentChunk st)
  /\ (FuriganaApi.currentLength st <= maxLength)%Z
  /\ Forall (fun chunk => chunk <> [] /\ (byteLength chunk <= maxLength)%Z)
       (FuriganaApi.chunks st).

(** [line] lies whole inside [chunk]. *)
Definition liesIn (line chunk : jsstring) : Prop :=
  exists before after, chunk = before ++ line ++ after.

(** [line] lies whole inside a chunk that the line-based splitter has
    pushed, or inside the chunk it is filling. *)
Definition held (line : jsstring) (st : FuriganaApiAxios.SplitState) : Prop :=
  (exists chunk, chunk ∈ FuriganaApiAxios.chunks st /\ liesIn line chunk)
  \/ liesIn line (FuriganaApiAxios.currentChunk st).

(** The result of a merge loop holds, in order, all the text before its
    cursor, and the cursor is inside the text. *)
Definition covers (text : jsstring) (cur : Cursor) : Prop :=
  (currentPos cur <= length text)%nat
  /\ take (currentPos cur) text `sublist_of` result cur.

(** A skip table whose keys are kanji and whose counts are all the skip
    length. *)
Definition freshCounts (skipLength : Z) (info : gmap N Z) : Prop :=
  forall kanji count,
    info !! kanji = Some count ->
    isKanji kanji = true /\ count = skipLength.

(** [next] starts with a character that did not fit into [chunk] any more. *)
Definition fitsNoMore (maxLength : Z) (chunk next : jsstring) : Prop :=
  match next with
  | [] => False
  | char :: _ => (maxLength < byteLength chunk + FuriganaApi.charLength char)%Z
  end.

(** Every chunk of the list was closed only because the first character of
    the next one did not fit. *)
Fixpoint closedWhenFull (maxLength : Z) (chunk : jsstring)
    (rest : list jsstring) : Prop :=
  match rest with
  | [] => True
  | next :: rest' =>
      fitsNoMore maxLength chunk next /\ closedWhenFull maxLength next rest'
  end.

Definition greedy (maxLength : Z) (chunks : list jsstring) : Prop :=
  match chunks with
  | [] => True
  | chunk :: rest => closedWhenFull maxLength chunk rest
  end.

(** Every surface of the list is found in [text], each one from the end of
    the one before. *)
Fixpoint allFound (text : jsstring) (currentPos : nat)
    (surfaces : list jsstring) : bool :=
  match surfaces with
  | [] => true
  | surface :: rest =>
      match indexOf text surface currentPos with
      | Some startPos => allFound text (startPos + length surface) rest
      | None => false
      end
  end.

(** The subwords of a word are all found in its surface. *)
Definition subwordsFound (word : Word) : bool :=
  allFound (surface word) 0 (SubWord.surface <$> default [] (subword word)).

(** The lines of a text. *)
Definition lines (text : jsstring) : list jsstring := split text [LF].

(** A text whose page-break marker starts at byte 3997: 漢, 1331 times あ,
    the letter a, the marker, 漢. *)
Definition filler : jsstring := replicate 1331 0x3042 ++ js "a".
Definition straddlingText : jsstring :=
  js "漢" ++ filler ++ pageBreak ++ js "漢".

(** ** The skip table during a run *)

(** From [info] to [info'] no entry was lowered or removed: each one is as it
    was, or has been set to the skip length. *)
Definition onlySet (skipLength : Z) (info info' : gmap N Z) : Prop :=
  forall kanji : N,
    info' !! kanji = info !! kanji
    \/ ((0 < skipLength)%Z /\ info' !! kanji = Some skipLength).

(** * Properties *)

Example js_kanji : js "漢字" = [0x6F22; 0x5B57].
Proof. reflexivity. Qed.

Example pageBreak_units : pageBreak = [0xFF5B; 0x6539; 0x9801; 0xFF5D].
Proof. reflexivity. Qed.

Local Close Scope N_scope.

(** ** String primitives *)

Section StringFacts.

Implicit Types (s t hay needle : jsstring) (c : N).

Lemma startsWith_app needle hay :
  startsWith needle hay = true -> hay = needle ++ drop (length needle) hay.
Proof.
  revert hay; induction needle as [|a needle IH]; intros [|b hay] H;
    simpl in *; try done.
  apply andb_true_iff in H as [Hab H].
  apply N.eqb_eq in Hab; subst b. f_equal. by apply IH.
Qed.

Lemma startsWith_refl needle rest : startsWith needle (needle ++ rest) = true.
Proof.
  induction needle as [|a needle IH]; simpl; [done|].
  by rewrite N.eqb_refl, IH.
Qed.

Lemma searchFrom_Some needle hay k j :
  searchFrom needle hay k = Some j ->
  k <= j /\ j - k <= length hay /\ startsWith needle (drop (j - k) hay) = true.
Proof.
  revert k; induction hay as [|b hay IH]; intros k; simpl.
  - destruct (startsWith needle []) eqn:E; [|done].
    intros [= <-]. rewrite Nat.sub_diag. simpl. auto with lia.
  - destruct (startsWith needle (b :: hay)) eqn:E.
    + intros [= <-]. rewrite Nat.sub_diag. simpl. auto with lia.
    + intros H. apply IH in H as (Hk & Hlen & Hst).
      replace (j - k) with (S (j - S k)) by lia. simpl. auto with lia.
Qed.

Lemma indexOf_Some hay needle position startPos :
  indexOf hay needle position = Some startPos ->
  position <= length hay ->
  position <= startPos
  /\ startPos + length needle <= length hay
  /\ take (length needle) (drop startPos hay) = needle.
Proof.
  unfold indexOf. intros H Hpos.
  rewrite Nat.min_l in H by done.
  apply searchFrom_Some in H as (Hk & Hlen & Hst).
  rewrite length_drop in Hlen.
  rewrite drop_drop in Hst.
  replace (position + (startPos - position)) with startPos in Hst by lia.
  apply startsWith_app in Hst.
  assert (Hn : length needle <= length (drop startPos hay)).
  { rewrite Hst, length_app. lia. }
  rewrite length_drop in Hn.
  split; [done|]. split; [lia|].
  rewrite Hst. by rewrite take_app_length.
Qed.

(** The three pieces around a match make up what followed the cursor. *)
Lemma cut_at_match hay needle position startPos :
  position <= startPos ->
  startPos + length needle <= length hay ->
  take (length needle) (drop startPos hay) = needle ->
  substring hay position startPos ++ needle
    ++ drop (startPos + length needle) hay
  = drop position hay.
Proof.
  intros Hle Hlen Htake. unfold substring.
  rewrite <- Htake at 1.
  rewrite <- (drop_drop hay (length needle) startPos), take_drop.
  replace (drop startPos hay)
    with (drop (startPos - position) (drop position hay))
    by (rewrite drop_drop; f_equal; lia).
  by rewrite take_drop.
Qed.

Lemma startsWith_app_long needle hay rest :
  length needle <= length hay ->
  startsWith needle (hay ++ rest) = startsWith needle hay.
Proof.
  revert hay; induction needle as [|a needle IH]; intros [|b hay] Hlen;
    simpl in *; try done; try lia.
  rewrite IH by lia. done.
Qed.

Lemma searchFrom_app needle hay rest k :
  startsWith needle rest = true ->
  is_Some (searchFrom needle (hay ++ rest) k).
Proof.
  intros Hrest. revert k; induction hay as [|b hay IH]; intros k.
  - destruct rest; simpl; rewrite Hrest; by eexists.
  - cbn [app searchFrom].
    destruct (startsWith needle (b :: hay ++ rest)); [by eexists | apply IH].
Qed.

Lemma includes_app hay needle rest :
  includes (hay ++ needle ++ rest) needle = true.
Proof.
  unfold includes, indexOf. rewrite Nat.min_0_l, drop_0.
  by destruct (searchFrom_app needle hay (needle ++ rest) 0
                 (startsWith_refl needle rest)) as [j ->].
Qed.

Lemma splitScan_nonempty sep skip s : splitScan sep skip s <> [].
Proof.
  revert skip; induction s as [|c s IH]; intros skip; [done|].
  cbn [splitScan]. destruct skip; [|apply IH].
  destruct (startsWith sep (c :: s)); [done|].
  by destruct (splitScan sep 0 s).
Qed.

(** The four code units of the marker are different from one another, so no
    occurrence of the marker overlaps another one. *)
Lemma pageBreak_no_overlap hay rest :
  0 < length hay < length pageBreak ->
  startsWith pageBreak (hay ++ pageBreak ++ rest) = false.
Proof.
  change pageBreak with [0xFF5B; 0x6539; 0x9801; 0xFF5D]%N.
  intros Hlen.
  destruct hay as [|x [|y [|z [|? ?]]]]; simpl in Hlen; try lia;
    cbn [app startsWith]; change (0x6539 =? 0xFF5B)%N with false;
    change (0x9801 =? 0xFF5B)%N with false;
    change (0xFF5D =? 0xFF5B)%N with false;
    by rewrite ?andb_false_r.
Qed.

Lemma splitScan_pageBreak_skip rest :
  splitScan pageBreak (length pageBreak - 1) (tail (pageBreak ++ rest))
  = splitScan pageBreak 0 rest.
Proof. done. Qed.

(** A marker in a text separates the parts of what precedes it from the
    parts of what follows it. *)
Lemma splitScan_app_pageBreak hay skip rest :
  skip <= length hay ->
  splitScan pageBreak skip (hay ++ pageBreak ++ rest)
  = splitScan pageBreak skip hay ++ splitScan pageBreak 0 rest.
Proof.
  revert skip; induction hay as [|c hay IH]; intros skip Hskip.
  - simpl in Hskip. assert (skip = 0) as -> by lia.
    change ([] ++ pageBreak ++ rest)
      with (0xFF5B%N :: tail (pageBreak ++ rest)).
    cbn [splitScan].
    change (0xFF5B%N :: tail (pageBreak ++ rest)) with (pageBreak ++ rest).
    by rewrite startsWith_refl, splitScan_pageBreak_skip.
  - simpl in Hskip. change ((c :: hay) ++ pageBreak ++ rest)
      with (c :: (hay ++ pageBreak ++ rest)).
    cbn [splitScan]. destruct skip as [|skip]; [|apply IH; lia].
    change (c :: (hay ++ pageBreak ++ rest))
      with ((c :: hay) ++ pageBreak ++ rest).
    destruct (decide (length pageBreak <= length (c :: hay))) as [Hlong|Hshort].
    + rewrite startsWith_app_long by done.
      destruct (startsWith pageBreak (c :: hay)) eqn:Hstart.
      * apply startsWith_app in Hstart.
        rewrite IH; [done|].
        change (length pageBreak) with 4 in *. simpl in Hlong. lia.
      * rewrite IH by lia.
        pose proof (splitScan_nonempty pageBreak 0 hay).
        by destruct (splitScan pageBreak 0 hay).
    + rewrite pageBreak_no_overlap by (simpl in *; lia).
      assert (Hno : startsWith pageBreak (c :: hay) = false).
      { destruct (startsWith pageBreak (c :: hay)) eqn:Hstart; [|done].
        apply startsWith_app in Hstart.
        apply (f_equal length) in Hstart. rewrite length_app in Hstart.
        simpl in *. lia. }
      rewrite Hno, IH by lia.
      pose proof (splitScan_nonempty pageBreak 0 hay).
      by destruct (splitScan pageBreak 0 hay).
Qed.

Lemma split_app_pageBreak hay rest :
  split (hay ++ pageBreak ++ rest) pageBreak
  = split hay pageBreak ++ split rest pageBreak.
Proof. apply splitScan_app_pageBreak. lia. Qed.

Lemma searchFrom_None_shift needle hay k k' :
  searchFrom needle hay k = None -> searchFrom needle hay k' = None.
Proof.
  revert k k'; induction hay as [|b hay IH]; intros k k'; simpl;
    destruct (startsWith needle _); try done. apply IH.
Qed.

Lemma includes_cons_false needle c hay :
  startsWith needle (c :: hay) = false ->
  includes hay needle = false ->
  includes (c :: hay) needle = false.
Proof.
  unfold includes, indexOf. rewrite !Nat.min_0_l, !drop_0.
  intros Hstart Hrest. cbn [searchFrom]. rewrite Hstart.
  destruct (searchFrom needle hay 0) eqn:E; [done|].
  by rewrite (searchFrom_None_shift needle hay 0 1 E).
Qed.

Lemma startsWith_prefix needle hay rest :
  startsWith needle hay = true -> startsWith needle (hay ++ rest) = true.
Proof.
  revert hay; induction needle as [|a needle IH]; intros [|b hay] H;
    simpl in *; try done.
  apply andb_true_iff in H as [-> H]. by rewrite IH.
Qed.

(** The first part of a scan that is not inside a separator is a prefix of
    the text. *)
Lemma splitScan_first_prefix sep s :
  exists rest, s = hd [] (splitScan sep 0 s) ++ rest.
Proof.
  induction s as [|c s [rest IH]]; [by exists []|].
  cbn [splitScan]. destruct (startsWith sep (c :: s)).
  - by exists (c :: s).
  - pose proof (splitScan_nonempty sep 0 s).
    destruct (splitScan sep 0 s) as [|part parts]; [done|].
    exists rest. simpl in *. by rewrite IH at 1.
Qed.

(** No part of a split contains the separator. *)
Lemma splitScan_parts sep skip s :
  sep <> [] ->
  Forall (fun part => includes part sep = false) (splitScan sep skip s).
Proof.
  intros Hsep. revert skip; induction s as [|c s IH]; intros skip.
  - constructor; [|constructor]. by destruct sep.
  - cbn [splitScan]. destruct skip as [|skip]; [|apply IH].
    destruct (startsWith sep (c :: s)) eqn:Hstart.
    + constructor; [by destruct sep | apply IH].
    + pose proof (IH 0) as Hparts.
      destruct (splitScan_first_prefix sep s) as [rest Hprefix].
      pose proof (splitScan_nonempty sep 0 s) as Hne.
      destruct (splitScan sep 0 s) as [|part parts]; [done|].
      apply Forall_cons in Hparts as [Hpart Hparts].
      constructor; [|done]. apply includes_cons_false; [|done].
      destruct (startsWith sep (c :: part)) eqn:Hpartstart; [|done].
      apply (startsWith_prefix _ _ rest) in Hpartstart.
      simpl in Hprefix. rewrite Hprefix in Hstart.
      change ((c :: part) ++ rest) with (c :: (part ++ rest)) in Hpartstart.
      congruence.
Qed.

Lemma join_cons_cons c part parts sep :
  join ((c :: part) :: parts) sep = c :: join (part :: parts) sep.
Proof. by destruct parts. Qed.

Lemma join_nil_cons part parts sep :
  join ([] :: part :: parts) sep = sep ++ join (part :: parts) sep.
Proof. done. Qed.

(** Joining the parts of a split with the separator gives back the text. *)
Lemma join_splitScan sep skip s :
  sep <> [] -> join (splitScan sep skip s) sep = drop skip s.
Proof.
  intros Hsep. revert skip; induction s as [|c s IH]; intros skip.
  - by destruct skip.
  - cbn [splitScan]. destruct skip as [|skip]; [|apply IH].
    destruct (startsWith sep (c :: s)) eqn:Hstart.
    + pose proof (splitScan_nonempty sep (length sep - 1) s) as Hne.
      pose proof (IH (length sep - 1)) as Hrest.
      destruct (splitScan sep (length sep - 1) s) as [|part parts]; [done|].
      rewrite join_nil_cons, Hrest.
      apply startsWith_app in Hstart.
      etrans; [|symmetry; exact Hstart]. f_equal.
      destruct sep as [|a sep]; [done|]. simpl. by rewrite Nat.sub_0_r.
    + pose proof (splitScan_nonempty sep 0 s) as Hne.
      pose proof (IH 0) as Hrest.
      destruct (splitScan sep 0 s) as [|part parts]; [done|].
      by rewrite join_cons_cons, Hrest.
Qed.

Lemma join_split s sep : sep <> [] -> join (split s sep) sep = s.
Proof. intros Hsep. by apply join_splitScan. Qed.

End StringFacts.

(** ** Rendering styles *)

(** C7. Word-level rendering of the surface 漢字 with the reading かんじ gives
    漢字《かんじ》 in the ink-bracket style and
    <ruby>漢字<rt>かんじ</rt></ruby> in the XHTML style. *)
Theorem word_level_style_fidelity :
  FuriganaApi.applyInkBracketRuby (js "漢字") (js "かんじ") = js "漢字《かんじ》"
  /\ FuriganaApi.applyXhtmlRuby (js "漢字") (js "かんじ")
     = js "<ruby>漢字<rt>かんじ</rt></ruby>".
Proof. split; reflexivity. Qed.

(** The per-character renderers of the line-based variant pair the i-th kanji
    with the i-th code unit of the reading. *)
Example per_character_rendering :
  FuriganaApiAxios.applyInkBracketRuby (js "漢字") (js "かんじ")
  = js "漢【か】字【ん】"
  /\ FuriganaApiAxios.applyXhtmlRuby (js "漢字") (js "かんじ")
     = js "<ruby>漢<rt>か</rt></ruby><ruby>字<rt>ん</rt></ruby>".
Proof. split; reflexivity. Qed.

(** ** The merge of a response into its chunk *)

Section MergeFacts.

Import FuriganaProcessor.

Variable skipLength : Z.
Variable rubyStyle : RubyStyle.

Local Abbreviation applyRubyToWord := (applyRubyToWord skipLength rubyStyle).
Local Abbreviation wordStep := (wordStep skipLength rubyStyle).
Local Abbreviation renderRun := (renderRun skipLength rubyStyle).
Local Abbreviation applyRubyFromResponse :=
  (applyRubyFromResponse skipLength rubyStyle).

Lemma merge_text originalText words currentPos :
  currentPos <= length originalText ->
  concat (runText <$> merge originalText currentPos words)
  = drop currentPos originalText.
Proof.
  revert currentPos; induction words as [|word words IH]; intros pos Hpos; simpl.
  - destruct (Nat.ltb_spec pos (length originalText)); simpl.
    + by rewrite app_nil_r.
    + by rewrite drop_ge.
  - destruct (indexOf originalText (surface word) pos) as [startPos|] eqn:Hfind.
    + apply indexOf_Some in Hfind as (Hle & Hlen & Htake); [|done].
      rewrite fmap_app, concat_app. simpl. rewrite IH by lia.
      rewrite <- (cut_at_match originalText (surface word) pos startPos)
        by done.
      destruct (Nat.ltb_spec pos startPos); simpl.
      * by rewrite app_nil_r.
      * unfold substring. replace (startPos - pos) with 0 by lia. done.
    + simpl. by apply IH.
Qed.

Lemma wordStep_loop_merge originalText words cur skipInfo :
  (let '(cur', skipInfo') := foldl (wordStep originalText) (cur, skipInfo) words in
   (withRest originalText cur', skipInfo'))
  = foldl renderRun (result cur, skipInfo)
      (merge originalText (currentPos cur) words).
Proof.
  revert cur skipInfo; induction words as [|word words IH]; intros cur info.
  - simpl. unfold withRest.
    by destruct (currentPos cur <? length originalText)%nat.
  - cbn [foldl merge]. unfold FuriganaProcessor.wordStep at 2.
    destruct (applyRubyToWord info word) as [processedWord info'] eqn:Hword.
    destruct (indexOf originalText (surface word) (currentPos cur))
      as [startPos|] eqn:Hfind.
    + rewrite IH. cbn [result currentPos]. rewrite foldl_app.
      cbn [foldl]. f_equal. unfold withGap.
      destruct (currentPos cur <? startPos)%nat; cbn [foldl];
        unfold renderRun; by rewrite Hword.
    + rewrite IH. cbn [foldl]. f_equal.
      unfold renderRun. by rewrite Hword.
Qed.

Lemma applyRubyFromResponse_merge skipInfo words originalText :
  applyRubyFromResponse skipInfo words originalText
  = foldl renderRun ([], skipInfo) (merge originalText 0 words).
Proof.
  unfold FuriganaProcessor.applyRubyFromResponse.
  apply (wordStep_loop_merge originalText words
           {| result := []; currentPos := 0 |} skipInfo).
Qed.

(** C5. The merge step cuts the chunk into copy-through runs and gloss
    candidates (and words that were not found, which stand for no text): the
    method renders exactly these runs, and their texts, each candidate taken
    at its surface, concatenate to the chunk, whatever the word list and
    whatever the skip table decides. *)
Theorem merge_reconstructs_chunk skipInfo words originalText :
  applyRubyFromResponse skipInfo words originalText
  = foldl renderRun ([], skipInfo) (merge originalText 0 words)
  /\ concat (runText <$> merge originalText 0 words) = originalText.
Proof.
  split.
  - apply applyRubyFromResponse_merge.
  - rewrite merge_text by lia. done.
Qed.

(** A word whose surface is not found at or after the cursor adds nothing to
    the result and leaves the cursor where it was, the loop goes on with the
    remaining words, and the runs of the merge still make up all the text
    after the cursor.  The skip table is the one [applyRubyToWord] left: the
    method renders the word before it looks it up. *)
Theorem alignment_miss_skips_word originalText cur skipInfo word words :
  currentPos cur <= length originalText ->
  indexOf originalText (surface word) (currentPos cur) = None ->
  wordStep originalText (cur, skipInfo) word
  = (cur, snd (applyRubyToWord skipInfo word))
  /\ foldl (wordStep originalText) (cur, skipInfo) (word :: words)
     = foldl (wordStep originalText)
         (cur, snd (applyRubyToWord skipInfo word)) words
  /\ merge originalText (currentPos cur) (word :: words)
     = AlignmentMiss word :: merge originalText (currentPos cur) words
  /\ concat (runText <$> merge originalText (currentPos cur) (word :: words))
     = drop (currentPos cur) originalText.
Proof.
  intros Hpos Hmiss.
  assert (Hstep : wordStep originalText (cur, skipInfo) word
                  = (cur, snd (applyRubyToWord skipInfo word))).
  { unfold FuriganaProcessor.wordStep.
    destruct (applyRubyToWord skipInfo word) as [processedWord skipInfo'].
    by rewrite Hmiss. }
  repeat split.
  - exact Hstep.
  - cbn [foldl]. by rewrite Hstep.
  - cbn [merge]. by rewrite Hmiss.
  - by apply merge_text.
Qed.

End MergeFacts.

(** A reply that spells the word differently from the chunk. *)
Lemma alignment_miss_witness :
  let word := {| surface := js "感じ"; furigana := Some (js "かんじ");
                 roman := None; subword := None |} in
  let cur := {| result := []; currentPos := 0 |} in
  FuriganaProcessor.wordStep 10 InkBracket (js "漢字") (cur, ∅) word
  = (cur, snd (FuriganaProcessor.applyRubyToWord 10 InkBracket ∅ word))
  /\ foldl (FuriganaProcessor.wordStep 10 InkBracket (js "漢字")) (cur, ∅) [word]
     = foldl (FuriganaProcessor.wordStep 10 InkBracket (js "漢字"))
         (cur, snd (FuriganaProcessor.applyRubyToWord 10 InkBracket ∅ word)) []
  /\ merge (js "漢字") (currentPos cur) [word]
     = AlignmentMiss word
       :: merge (js "漢字") (currentPos cur) []
  /\ concat (runText
               <$> merge (js "漢字") (currentPos cur) [word])
     = drop (currentPos cur) (js "漢字").
Proof.
  intros word cur.
  apply (alignment_miss_skips_word 10 InkBracket (js "漢字") cur ∅ word []).
  - simpl. lia.
  - reflexivity.
Defined.

(** ** The skip table during a run *)

Section SkipTableFacts.

Import FuriganaProcessor.

Variable clientId : jsstring.
Variable skipLength : Z.
Variable grade : N.
Variable rubyStyle : RubyStyle.
Variable requestFurigana : nat -> jsstring -> jsstring -> N -> option (list Word).

Local Abbreviation updateSkipInfo := (updateSkipInfo skipLength).
Local Abbreviation glossOrSkip := (glossOrSkip skipLength rubyStyle).
Local Abbreviation subwordStep := (subwordStep skipLength rubyStyle).
Local Abbreviation applyRubyToWord := (applyRubyToWord skipLength rubyStyle).
Local Abbreviation wordStep := (wordStep skipLength rubyStyle).
Local Abbreviation applyRubyFromResponse :=
  (applyRubyFromResponse skipLength rubyStyle).
Local Abbreviation processChunk :=
  (processChunk clientId skipLength grade rubyStyle requestFurigana).
Local Abbreviation tryProcessChunk :=
  (tryProcessChunk clientId skipLength grade rubyStyle requestFurigana).
Local Abbreviation processParts :=
  (processParts clientId skipLength grade rubyStyle requestFurigana).
Local Abbreviation chunkStep :=
  (chunkStep clientId skipLength grade rubyStyle requestFurigana).
Local Abbreviation processChunks :=
  (processChunks clientId skipLength grade rubyStyle requestFurigana).
Local Abbreviation onlySet := (onlySet skipLength).

Implicit Types (info : gmap N Z) (this : Processor).

Lemma onlySet_refl info : onlySet info info.
Proof. intros k. by left. Qed.

Lemma onlySet_trans info1 info2 info3 :
  onlySet info1 info2 -> onlySet info2 info3 -> onlySet info1 info3.
Proof.
  intros H12 H23 k. destruct (H23 k) as [->|?]; [apply H12 | by right].
Qed.

(** The loop of [updateSkipInfo]. *)
Lemma record_loop_onlySet surface info :
  (0 < skipLength)%Z ->
  onlySet info
    (foldl (fun info char =>
              if isKanji char then <[char := skipLength]> info else info)
       info surface).
Proof.
  intros Hpos. revert info; induction surface as [|char surface IH];
    intros info; simpl; [apply onlySet_refl|].
  eapply onlySet_trans; [|apply IH].
  destruct (isKanji char); [|apply onlySet_refl].
  intros k. destruct (decide (char = k)) as [->|Hne].
  - right. by rewrite lookup_insert_eq.
  - left. by rewrite lookup_insert_ne.
Qed.

Lemma record_loop_lookup surface info kanji :
  isKanji kanji = true -> kanji ∈ surface ->
  foldl (fun info char =>
           if isKanji char then <[char := skipLength]> info else info)
    info surface !! kanji = Some skipLength.
Proof.
  intros Hk. revert info; induction surface as [|char surface IH];
    intros info Hin; [by apply elem_of_nil in Hin|].
  simpl. destruct (decide (kanji ∈ surface)) as [Hin'|Hnin]; [by apply IH|].
  apply elem_of_cons in Hin as [<-|?]; [|done].
  rewrite Hk.
  (* the later characters either set the same entry again or another one *)
  clear IH Hnin. generalize (<[kanji := skipLength]> info) (lookup_insert_eq info kanji skipLength).
  induction surface as [|c surface IH]; intros m Hm; simpl; [done|].
  apply IH. destruct (isKanji c); [|done].
  destruct (decide (c = kanji)) as [->|Hne].
  - by rewrite lookup_insert_eq.
  - by rewrite lookup_insert_ne.
Qed.

Lemma updateSkipInfo_onlySet info surface :
  onlySet info (updateSkipInfo info surface).
Proof.
  unfold FuriganaProcessor.updateSkipInfo.
  destruct (Z.leb_spec skipLength 0); [apply onlySet_refl|].
  by apply record_loop_onlySet.
Qed.

Lemma updateSkipInfo_lookup info surface kanji :
  (1 <= skipLength)%Z -> isKanji kanji = true -> kanji ∈ surface ->
  updateSkipInfo info surface !! kanji = Some skipLength.
Proof.
  intros HN Hk Hin. unfold FuriganaProcessor.updateSkipInfo.
  destruct (Z.leb_spec skipLength 0); [lia|].
  by apply record_loop_lookup.
Qed.

Lemma glossOrSkip_onlySet info surface furigana :
  onlySet info (snd (glossOrSkip info surface furigana)).
Proof.
  unfold FuriganaProcessor.glossOrSkip.
  destruct (shouldSkipRuby info surface); simpl;
    [apply onlySet_refl | apply updateSkipInfo_onlySet].
Qed.

Lemma subwordStep_onlySet wordSurface cur info sub :
  onlySet info (snd (subwordStep wordSurface (cur, info) sub)).
Proof.
  unfold FuriganaProcessor.subwordStep.
  destruct (indexOf wordSurface (SubWord.surface sub) (currentPos cur));
    [|apply onlySet_refl].
  destruct (reading (SubWord.furigana sub)) as [furigana|]; simpl;
    [|apply onlySet_refl].
  pose proof (glossOrSkip_onlySet info (SubWord.surface sub) furigana) as H.
  by destruct (glossOrSkip info (SubWord.surface sub) furigana).
Qed.

Lemma subword_loop_onlySet wordSurface subs cur info :
  onlySet info (snd (foldl (subwordStep wordSurface) (cur, info) subs)).
Proof.
  revert cur info; induction subs as [|sub subs IH]; intros cur info;
    [apply onlySet_refl|].
  cbn [foldl].
  pose proof (subwordStep_onlySet wordSurface cur info sub) as H.
  destruct (subwordStep wordSurface (cur, info) sub) as [cur' info'].
  eapply onlySet_trans; [exact H | apply IH].
Qed.

Lemma applyRubyToWord_onlySet info word :
  onlySet info (snd (applyRubyToWord info word)).
Proof.
  unfold FuriganaProcessor.applyRubyToWord.
  destruct (reading (furigana word)) as [furigana|]; [|apply onlySet_refl].
  destruct (subword word) as [[|sub subs]|];
    try apply glossOrSkip_onlySet.
  pose proof (subword_loop_onlySet (surface word) (sub :: subs)
                {| result := []; currentPos := 0 |} info) as H.
  by destruct (foldl _ _ (sub :: subs)).
Qed.

Lemma wordStep_onlySet originalText cur info word :
  onlySet info (snd (wordStep originalText (cur, info) word)).
Proof.
  unfold FuriganaProcessor.wordStep.
  pose proof (applyRubyToWord_onlySet info word) as H.
  destruct (applyRubyToWord info word) as [processedWord info'].
  by destruct (indexOf originalText (surface word) (currentPos cur)).
Qed.

Lemma applyRubyFromResponse_onlySet info words originalText :
  onlySet info (snd (applyRubyFromResponse info words originalText)).
Proof.
  unfold FuriganaProcessor.applyRubyFromResponse.
  generalize {| result := []; currentPos := 0 |}.
  revert info; induction words as [|word words IH]; intros info cur;
    [apply onlySet_refl|].
  cbn [foldl].
  pose proof (wordStep_onlySet originalText cur info word) as H.
  destruct (wordStep originalText (cur, info) word) as [cur' info'].
  eapply onlySet_trans; [exact H|]. apply IH.
Qed.

Lemma processChunk_onlySet this chunk :
  onlySet (skipInfo this) (skipInfo (snd (processChunk this chunk))).
Proof.
  unfold FuriganaProcessor.processChunk.
  destruct (trimIsEmpty chunk); [apply onlySet_refl|].
  destruct (requestFurigana _ _ _ _) as [words|]; [|apply onlySet_refl].
  pose proof (applyRubyFromResponse_onlySet (skipInfo this) words chunk) as H.
  by destruct (applyRubyFromResponse (skipInfo this) words chunk).
Qed.

Lemma tryProcessChunk_onlySet result this text :
  onlySet (skipInfo this) (skipInfo (snd (tryProcessChunk (result, this) text))).
Proof.
  unfold FuriganaProcessor.tryProcessChunk.
  pose proof (processChunk_onlySet this text) as H.
  by destruct (processChunk this text) as [[processed|] this'].
Qed.

Lemma processChunks_onlySet chunks result this :
  Forall (fun chunk => includes chunk pageBreak = false) chunks ->
  onlySet (skipInfo this)
    (skipInfo (snd (processChunks (result, this) chunks))).
Proof.
  intros Hchunks. revert result this.
  induction Hchunks as [|chunk chunks Hchunk _ IH]; intros result this;
    [apply onlySet_refl|].
  unfold FuriganaProcessor.processChunks. cbn [foldl].
  unfold FuriganaProcessor.chunkStep at 2. rewrite Hchunk.
  pose proof (tryProcessChunk_onlySet result this chunk) as H.
  destruct (tryProcessChunk (result, this) chunk) as [result' this'].
  eapply onlySet_trans; [exact H | apply IH].
Qed.

Lemma shouldSkipRuby_recorded info surface kanji count :
  isKanji kanji = true -> kanji ∈ surface ->
  info !! kanji = Some count -> (0 < count)%Z ->
  shouldSkipRuby info surface = true.
Proof.
  intros Hk Hin Hlook Hcount. unfold shouldSkipRuby.
  assert (Hhas : hasKanji surface = true).
  { apply existsb_exists. exists kanji. by rewrite <- list_elem_of_In. }
  rewrite Hhas. simpl. apply existsb_exists. exists kanji.
  rewrite <- list_elem_of_In. split; [done|].
  rewrite Hk, Hlook. simpl. by apply Z.ltb_lt.
Qed.

Lemma word_loop_onlySet originalText words cur info :
  onlySet info (snd (foldl (wordStep originalText) (cur, info) words)).
Proof.
  revert info cur; induction words as [|word words IH]; intros info cur;
    [apply onlySet_refl|].
  cbn [foldl].
  pose proof (wordStep_onlySet originalText cur info word) as H.
  destruct (wordStep originalText (cur, info) word) as [cur' info'].
  eapply onlySet_trans; [exact H|]. apply IH.
Qed.

Lemma onlySet_keeps info info' kanji :
  onlySet info info' -> info !! kanji = Some skipLength ->
  info' !! kanji = Some skipLength.
Proof. intros H Hk. destruct (H kanji) as [->|[_ ->]]; done. Qed.


End SkipTableFacts.


(** C2 (the code departs from it). With skip length 1 — and just the same
    with 2 or 100 — the kanji 漢 is glossed once; two kanji are emitted after
    it, and its next occurrence is still left without ruby: the window never
    elapses, because nothing counts the entry down. *)
Theorem skip_window_never_elapses :
  let run skipLength :=
    fst (FuriganaProcessor.process (js "id") skipLength 1 InkBracket mockService
           FuriganaProcessor.new (js "漢山川漢")) in
  run 1%Z = js "漢《かん》山《やま》川《かわ》漢"
  /\ run 2%Z = js "漢《かん》山《やま》川《かわ》漢"
  /\ run 100%Z = js "漢《かん》山《やま》川《かわ》漢".
Proof. repeat split; vm_compute; reflexivity. Qed.

(** What the unused method would do: counting an entry of 1 down once makes
    the kanji eligible again. *)
Example decrementSkipCounts_reopens :
  let info : gmap N Z := {[ 0x6F22%N := 1%Z ]} in
  FuriganaProcessor.shouldSkipRuby info (js "漢") = true
  /\ FuriganaProcessor.shouldSkipRuby
       (FuriganaProcessor.decrementSkipCounts info) (js "漢") = false.
Proof. split; vm_compute; reflexivity. Qed.

(** ** The loop over the chunks: page breaks and failures *)

Section RunFacts.

Import FuriganaProcessor.

Variable clientId : jsstring.
Variable skipLength : Z.
Variable grade : N.
Variable rubyStyle : RubyStyle.
Variable requestFurigana : nat -> jsstring -> jsstring -> N -> option (list Word).

Local Abbreviation glossOrSkip := (glossOrSkip skipLength rubyStyle).
Local Abbreviation tryProcessChunk :=
  (tryProcessChunk clientId skipLength grade rubyStyle requestFurigana).
Local Abbreviation processParts :=
  (processParts clientId skipLength grade rubyStyle requestFurigana).
Local Abbreviation chunkStep :=
  (chunkStep clientId skipLength grade rubyStyle requestFurigana).
Local Abbreviation processChunks :=
  (processChunks clientId skipLength grade rubyStyle requestFurigana).

Implicit Types (acc : jsstring * Processor) (this : Processor).

Lemma shouldSkipRuby_empty surface : shouldSkipRuby ∅ surface = false.
Proof.
  unfold shouldSkipRuby. destruct (hasKanji surface); simpl; [|done].
  induction surface as [|char surface IH]; simpl; [done|].
  by rewrite lookup_empty, andb_false_r, IH.
Qed.

Lemma processParts_last acc part :
  processParts acc [part]
  = if truthy part then tryProcessChunk acc part else acc.
Proof. done. Qed.

Lemma processParts_cons acc part next rest :
  processParts acc (part :: next :: rest)
  = processParts (crossPageBreak (processParts acc [part])) (next :: rest).
Proof. done. Qed.

Lemma processParts_split acc before part next rest :
  processParts acc (before ++ part :: next :: rest)
  = processParts (crossPageBreak (processParts acc (before ++ [part])))
      (next :: rest).
Proof.
  revert acc; induction before as [|b before IH]; intros acc.
  - apply processParts_cons.
  - destruct before as [|b' before].
    + simpl app. rewrite (processParts_cons acc b part), processParts_cons.
      by rewrite (processParts_cons acc b part []).
    + change ((b :: b' :: before) ++ part :: next :: rest)
        with (b :: b' :: (before ++ part :: next :: rest)).
      change ((b :: b' :: before) ++ [part])
        with (b :: b' :: (before ++ [part])).
      rewrite !(processParts_cons acc b b'). apply IH.
Qed.

Lemma processParts_app acc parts next rest :
  parts <> [] ->
  processParts acc (parts ++ next :: rest)
  = processParts (crossPageBreak (processParts acc parts)) (next :: rest).
Proof.
  intros Hparts.
  destruct (exists_last Hparts) as (before & part & ->).
  rewrite <- app_assoc. apply processParts_split.
Qed.

(** A chunk in which the marker occurs, with any text [before] it and
    any text [after] it, is processed in three steps: the parts of [before];
    then the marker is added to the result and the skip table is replaced by
    an empty one (the state [atBreak]); then the parts of [after], from that
    state.  So right after the marker no surface is skipped, and a surface
    that comes with a reading is glossed, whatever was glossed before the
    marker and however recently. *)
Theorem page_break_resets_skip_table acc before after :
  let atBreak := crossPageBreak (processParts acc (split before pageBreak)) in
  chunkStep acc (before ++ pageBreak ++ after)
  = processParts atBreak (split after pageBreak)
  /\ fst atBreak = fst (processParts acc (split before pageBreak)) ++ pageBreak
  /\ skipInfo (snd atBreak) = ∅
  /\ (forall surface, shouldSkipRuby (skipInfo (snd atBreak)) surface = false)
  /\ (forall surface furigana,
         glossOrSkip (skipInfo (snd atBreak)) surface furigana
         = (applyRuby rubyStyle surface furigana,
            updateSkipInfo skipLength ∅ surface)).
Proof.
  intros atBreak.
  assert (Hempty : skipInfo (snd atBreak) = ∅).
  { subst atBreak. by destruct (processParts acc (split before pageBreak)). }
  repeat split.
  - unfold FuriganaProcessor.chunkStep.
    rewrite includes_app, split_app_pageBreak.
    pose proof (splitScan_nonempty pageBreak 0 after) as Hafter.
    unfold split at 2 3. destruct (splitScan pageBreak 0 after) as [|next rest];
      [done|].
    apply processParts_app, splitScan_nonempty.
  - subst atBreak. by destruct (processParts acc (split before pageBreak)).
  - exact Hempty.
  - intros surface. rewrite Hempty. apply shouldSkipRuby_empty.
  - intros surface furigana. rewrite Hempty.
    unfold FuriganaProcessor.glossOrSkip. by rewrite shouldSkipRuby_empty.
Qed.

(** C4. When the service fails for a chunk (a text that is not blank, so a
    request is made), the chunk's raw text is what is added to the result,
    the skip table is what it was, and the loop goes on with the next chunk
    — or, inside a chunk with page breaks, with the next part — from that
    state. *)
Theorem annotation_failure_falls_back result this chunk chunks next rest :
  trimIsEmpty chunk = false ->
  includes chunk pageBreak = false ->
  requestFurigana (length (requests this)) chunk clientId grade = None ->
  let after := (result ++ chunk,
                {| skipInfo := skipInfo this;
                   requests := requests this ++ [chunk] |}) in
  tryProcessChunk (result, this) chunk = after
  /\ processChunks (result, this) (chunk :: chunks) = processChunks after chunks
  /\ processParts (result, this) (chunk :: next :: rest)
     = processParts (crossPageBreak after) (next :: rest).
Proof.
  intros Hblank Hmarker Hfail after.
  assert (Htry : tryProcessChunk (result, this) chunk = after).
  { unfold FuriganaProcessor.tryProcessChunk, processChunk.
    by rewrite Hblank, Hfail. }
  repeat split.
  - exact Htry.
  - unfold FuriganaProcessor.processChunks. cbn [foldl].
    unfold FuriganaProcessor.chunkStep at 2. by rewrite Hmarker, Htry.
  - rewrite processParts_cons, processParts_last.
    destruct chunk; [done|]. cbn [truthy]. by rewrite Htry.
Qed.

(** *** What is sent to the service *)

Local Abbreviation markerFree :=
  (Forall (fun text : jsstring => includes text pageBreak = false)).

Lemma tryProcessChunk_requests acc text :
  markerFree (requests (snd acc)) ->
  includes text pageBreak = false ->
  markerFree (requests (snd (tryProcessChunk acc text))).
Proof.
  destruct acc as [result this]. intros Hlog Htext.
  unfold FuriganaProcessor.tryProcessChunk, processChunk.
  destruct (trimIsEmpty text); [done|].
  assert (markerFree (requests this ++ [text])) as Hsent.
  { apply Forall_app. split; [done|]. by constructor. }
  destruct (requestFurigana _ _ _ _) as [words|]; [|done].
  by destruct (applyRubyFromResponse _ _ _ _ _).
Qed.

Lemma processParts_requests parts acc :
  markerFree (requests (snd acc)) ->
  markerFree parts ->
  markerFree (requests (snd (processParts acc parts))).
Proof.
  revert acc; induction parts as [|part parts IH]; intros acc Hlog Hparts;
    [done|].
  apply Forall_cons in Hparts as [Hpart Hparts].
  assert (markerFree (requests (snd (processParts acc [part])))) as Hfirst.
  { rewrite processParts_last.
    destruct (truthy part); [by apply tryProcessChunk_requests | done]. }
  destruct parts as [|next rest]; [done|].
  rewrite processParts_cons. apply IH; [|done].
  by destruct (processParts acc [part]).
Qed.

Lemma chunkStep_requests acc chunk :
  markerFree (requests (snd acc)) ->
  markerFree (requests (snd (chunkStep acc chunk))).
Proof.
  intros Hlog. unfold FuriganaProcessor.chunkStep.
  destruct (includes chunk pageBreak) eqn:Hchunk.
  - apply processParts_requests; [done|]. by apply splitScan_parts.
  - by apply tryProcessChunk_requests.
Qed.

Lemma processChunks_requests chunks acc :
  markerFree (requests (snd acc)) ->
  markerFree (requests (snd (processChunks acc chunks))).
Proof.
  revert acc; induction chunks as [|chunk chunks IH]; intros acc Hlog;
    [done|].
  apply IH. by apply chunkStep_requests.
Qed.

(** No text that a run sends to the service contains the whole marker. *)
Theorem requests_hold_no_marker text :
  Forall (fun sent => includes sent pageBreak = false)
    (requests (snd (process clientId skipLength grade rubyStyle requestFurigana
                      new text))).
Proof. apply processChunks_requests. constructor. Qed.

(** *** A service that gives no reading *)

Lemma processParts_join_step acc part :
  (forall acc text, fst (tryProcessChunk acc text) = fst acc ++ text) ->
  fst (processParts acc [part]) = fst acc ++ part.
Proof.
  intros Hraw. rewrite processParts_last.
  destruct part; [by rewrite app_nil_r | apply Hraw].
Qed.

Lemma processParts_join parts acc :
  (forall acc text, fst (tryProcessChunk acc text) = fst acc ++ text) ->
  parts <> [] ->
  fst (processParts acc parts) = fst acc ++ join parts pageBreak.
Proof.
  intros Hraw. revert acc; induction parts as [|part parts IH];
    intros acc Hparts; [done|].
  destruct parts as [|next rest]; [by apply processParts_join_step|].
  rewrite processParts_cons, IH by done.
  pose proof (processParts_join_step acc part Hraw) as Hfirst.
  destruct (processParts acc [part]) as [result this]. simpl in *.
  rewrite Hfirst. change (join (part :: next :: rest) pageBreak)
    with (part ++ pageBreak ++ join (next :: rest) pageBreak).
  by rewrite <- !app_assoc.
Qed.

Lemma processChunks_raw chunks acc :
  (forall acc text, fst (tryProcessChunk acc text) = fst acc ++ text) ->
  fst (processChunks acc chunks) = fst acc ++ concat chunks.
Proof.
  intros Hraw. revert acc; induction chunks as [|chunk chunks IH]; intros acc.
  - by rewrite app_nil_r.
  - unfold FuriganaProcessor.processChunks. cbn [foldl].
    fold (processChunks (chunkStep acc chunk) chunks). rewrite IH.
    cbn [concat]. rewrite app_assoc. f_equal.
    unfold FuriganaProcessor.chunkStep.
    destruct (includes chunk pageBreak); [|apply Hraw].
    rewrite processParts_join; [|done|apply splitScan_nonempty].
    by rewrite join_split.
Qed.

(** *** A skip length of zero or less *)

Lemma onlySet_disabled info info' :
  (skipLength <= 0)%Z -> onlySet skipLength info info' -> info' = info.
Proof.
  intros Hoff H. apply map_eq. intros k. destruct (H k) as [?|[? _]]; [done|lia].
Qed.

Lemma tryProcessChunk_disabled acc text :
  (skipLength <= 0)%Z ->
  skipInfo (snd (tryProcessChunk acc text)) = skipInfo (snd acc).
Proof.
  destruct acc as [result this]. intros Hoff.
  apply onlySet_disabled; [done|].
  apply (tryProcessChunk_onlySet clientId skipLength grade rubyStyle
           requestFurigana).
Qed.

Lemma processParts_disabled parts acc :
  (skipLength <= 0)%Z -> skipInfo (snd acc) = ∅ ->
  skipInfo (snd (processParts acc parts)) = ∅.
Proof.
  intros Hoff. revert acc; induction parts as [|part parts IH];
    intros acc Hacc; [done|].
  assert (skipInfo (snd (processParts acc [part])) = ∅) as Hfirst.
  { rewrite processParts_last.
    destruct (truthy part); [by rewrite tryProcessChunk_disabled | done]. }
  destruct parts as [|next rest]; [done|].
  rewrite processParts_cons. apply IH.
  by destruct (processParts acc [part]).
Qed.

Lemma processChunks_disabled chunks acc :
  (skipLength <= 0)%Z -> skipInfo (snd acc) = ∅ ->
  skipInfo (snd (processChunks acc chunks)) = ∅.
Proof.
  intros Hoff. revert acc; induction chunks as [|chunk chunks IH];
    intros acc Hacc; [done|].
  apply IH. unfold FuriganaProcessor.chunkStep.
  destruct (includes chunk pageBreak).
  - by apply processParts_disabled.
  - by rewrite tryProcessChunk_disabled.
Qed.


End RunFacts.


(** The first chunk is lost to a failure, the second one is glossed. *)
Lemma annotation_failure_witness :
  let this := FuriganaProcessor.new in
  let after := (js "x" ++ js "漢",
                {| skipInfo := skipInfo this;
                   requests := requests this ++ [js "漢"] |}) in
  FuriganaProcessor.tryProcessChunk (js "id") 10 1 InkBracket flakyService
    (js "x", this) (js "漢") = after
  /\ FuriganaProcessor.processChunks (js "id") 10 1 InkBracket flakyService
       (js "x", this) [js "漢"; js "漢"]
     = FuriganaProcessor.processChunks (js "id") 10 1 InkBracket flakyService
         after [js "漢"]
  /\ FuriganaProcessor.processParts (js "id") 10 1 InkBracket flakyService
       (js "x", this) [js "漢"; js "漢"]
     = FuriganaProcessor.processParts (js "id") 10 1 InkBracket flakyService
         (FuriganaProcessor.crossPageBreak after) [js "漢"].
Proof.
  apply (annotation_failure_falls_back (js "id") 10 1%N InkBracket flakyService
           (js "x") FuriganaProcessor.new (js "漢") [js "漢"] (js "漢") []);
    reflexivity.
Defined.

(** After a failure the run goes on: the next chunk is glossed. *)
Example failure_then_success :
  fst (FuriganaProcessor.processChunks (js "id") 10 1 InkBracket flakyService
         ([], FuriganaProcessor.new) [js "漢"; js "山"])
  = js "漢山《やま》".
Proof. vm_compute. reflexivity. Qed.

(** The example of the specification: the second 漢字 before the break is
    skipped, the one after the break is glossed again. *)
Example end_to_end :
  fst (FuriganaProcessor.process (js "id") 10 1 InkBracket mockService
         FuriganaProcessor.new (js "漢字は漢字です｛改頁｝漢字"))
  = js "漢字《かんじ》は漢字です｛改頁｝漢字《かんじ》".
Proof. vm_compute. reflexivity. Qed.

(** ** The byte-budget splitter *)

Section ByteBudget.

Import FuriganaApi.

Variable maxLength : Z.

Implicit Types (st : SplitState) (text : jsstring).

Lemma charLength_pos char : (1 <= charLength char)%Z.
Proof. unfold charLength. repeat case_match; lia. Qed.

Lemma byteLength_nonneg text : (0 <= byteLength text)%Z.
Proof.
  induction text as [|char text IH]; simpl; [lia|].
  pose proof (charLength_pos char). lia.
Qed.

Lemma splitLoop_cons st char text :
  splitLoop maxLength st (char :: text)
  = splitLoop maxLength (splitStep maxLength st char) text.
Proof. done. Qed.

(** Nothing is dropped and nothing is added: the chunks pushed so far and the
    chunk being filled always hold the text read so far. *)
Lemma splitLoop_concat text st :
  concat (chunks (splitLoop maxLength st text))
    ++ currentChunk (splitLoop maxLength st text)
  = concat (chunks st) ++ currentChunk st ++ text.
Proof.
  revert st; induction text as [|char text IH]; intros st.
  - simpl. by rewrite app_nil_r.
  - rewrite splitLoop_cons, IH. unfold splitStep, flushIfFull.
    destruct (currentLength st + charLength char >? maxLength)%Z; simpl.
    + rewrite concat_app. simpl. by rewrite app_nil_r, <- !app_assoc.
    + by rewrite <- !app_assoc.
Qed.

Lemma finish_concat st :
  concat (finish st) = concat (chunks st) ++ currentChunk st.
Proof.
  unfold finish. destruct (currentChunk st) as [|c chunk]; simpl.
  - by rewrite app_nil_r.
  - rewrite concat_app. simpl. by rewrite app_nil_r.
Qed.

Lemma splitTextIntoChunks_round_trip text :
  concat (splitTextIntoChunks text maxLength) = text.
Proof.
  unfold splitTextIntoChunks. by rewrite finish_concat, splitLoop_concat.
Qed.

(** The chunks of a text, put end to end, are the text, whatever the
    maximum. *)
Theorem splitTextIntoChunks_concat text :
  concat (splitTextIntoChunks text maxLength) = text.
Proof. apply splitTextIntoChunks_round_trip. Qed.

(** As long as the budget is not exceeded the loop only extends the chunk. *)
Lemma splitLoop_fits text st :
  (currentLength st + byteLength text <= maxLength)%Z ->
  splitLoop maxLength st text
  = {| chunks := chunks st;
       currentChunk := currentChunk st ++ text;
       currentLength := (currentLength st + byteLength text)%Z |}.
Proof.
  revert st; induction text as [|char text IH]; intros st Hfit.
  - simpl. destruct st; simpl. by rewrite app_nil_r, Z.add_0_r.
  - simpl in Hfit. pose proof (byteLength_nonneg text).
    rewrite splitLoop_cons. unfold splitStep, flushIfFull.
    destruct (Z.gtb_spec (currentLength st + charLength char) maxLength);
      [lia|].
    rewrite IH; simpl; [|lia].
    f_equal; [by rewrite <- app_assoc | lia].
Qed.

Lemma splitLoop_chunks_mono text st :
  length (chunks st) <= length (chunks (splitLoop maxLength st text)).
Proof.
  revert st; induction text as [|char text IH]; intros st; [done|].
  rewrite splitLoop_cons. etrans; [|apply IH].
  unfold splitStep, flushIfFull.
  destruct (currentLength st + charLength char >? maxLength)%Z; simpl;
    [rewrite length_app; simpl|]; lia.
Qed.

(** Once the budget is exceeded a chunk has been pushed. *)
Lemma splitLoop_overflow text st :
  (currentLength st <= maxLength)%Z ->
  (maxLength < currentLength st + byteLength text)%Z ->
  length (chunks st) < length (chunks (splitLoop maxLength st text)).
Proof.
  revert st; induction text as [|char text IH]; intros st Hinv Hover.
  - simpl in Hover. lia.
  - rewrite splitLoop_cons. simpl in Hover.
    destruct (Z.gtb_spec (currentLength st + charLength char) maxLength)
      as [Hflush|Hkeep].
    + eapply Nat.lt_le_trans; [|apply splitLoop_chunks_mono].
      unfold splitStep, flushIfFull.
      destruct (Z.gtb_spec (currentLength st + charLength char) maxLength);
        [|lia].
      simpl. rewrite length_app. simpl. lia.
    + assert (Hst : chunks (splitStep maxLength st char) = chunks st
                    /\ currentLength (splitStep maxLength st char)
                       = (currentLength st + charLength char)%Z).
      { unfold splitStep, flushIfFull.
        destruct (Z.gtb_spec (currentLength st + charLength char) maxLength);
          [lia|done]. }
      destruct Hst as [Hchunks Hlen].
      rewrite <- Hchunks. apply IH; rewrite Hlen; lia.
Qed.

Lemma splitStep_currentChunk st char :
  currentChunk (splitStep maxLength st char) <> [].
Proof. unfold splitStep. simpl. by destruct (currentChunk _). Qed.

Lemma splitLoop_currentChunk text st :
  currentChunk st <> [] -> currentChunk (splitLoop maxLength st text) <> [].
Proof.
  revert st; induction text as [|char text IH]; intros st Hne; [done|].
  rewrite splitLoop_cons. apply IH, splitStep_currentChunk.
Qed.

Lemma charLength_le char : (charLength char <= 3)%Z.
Proof. unfold charLength. repeat case_match; lia. Qed.

Lemma byteLength_app text1 text2 :
  byteLength (text1 ++ text2) = (byteLength text1 + byteLength text2)%Z.
Proof. induction text1 as [|char text1 IH]; simpl; [done|]. rewrite IH. lia. Qed.

Lemma splitStep_withinBudget st char :
  (3 <= maxLength)%Z -> withinBudget maxLength st ->
  withinBudget maxLength (splitStep maxLength st char).
Proof.
  intros Hmax (Hlen & Hfit & Hchunks).
  pose proof (charLength_pos char). pose proof (charLength_le char).
  unfold withinBudget, splitStep, flushIfFull.
  destruct (Z.gtb_spec (currentLength st + charLength char) maxLength);
    cbn [chunks currentChunk currentLength].
  - split; [simpl; lia|]. split; [lia|].
    apply Forall_app. split; [done|]. constructor; [|done].
    split; [|lia]. intros Hnil. rewrite Hnil in Hlen. simpl in Hlen. lia.
  - split; [rewrite byteLength_app; simpl; lia|]. split; [lia | done].
Qed.

Lemma splitLoop_withinBudget text st :
  (3 <= maxLength)%Z -> withinBudget maxLength st ->
  withinBudget maxLength (splitLoop maxLength st text).
Proof.
  intros Hmax. revert st; induction text as [|char text IH]; intros st Hst;
    [done|].
  rewrite splitLoop_cons. by apply IH, splitStep_withinBudget.
Qed.

Lemma chunks_fit text :
  (3 <= maxLength)%Z ->
  Forall (fun chunk => chunk <> [] /\ (byteLength chunk <= maxLength)%Z)
    (splitTextIntoChunks text maxLength).
Proof.
  intros Hmax. unfold splitTextIntoChunks.
  set (st0 := {| chunks := []; currentChunk := []; currentLength := 0 |}).
  assert (withinBudget maxLength st0) as Hst0.
  { repeat split; simpl; [lia | constructor]. }
  destruct (splitLoop_withinBudget text st0 Hmax Hst0) as (Hlen & Hfit & Hchunks).
  unfold finish.
  destruct (currentChunk (splitLoop maxLength st0 text)) eqn:Hcur; [done|].
  apply Forall_app. split; [done|]. constructor; [|done].
  split; [done | lia].
Qed.

(** When the maximum is at least 3 bytes, so that every character fits,
    no chunk is empty and no chunk is over the maximum. *)
Theorem chunks_within_budget text :
  (3 <= maxLength)%Z ->
  Forall (fun chunk => chunk <> [] /\ (byteLength chunk <= maxLength)%Z)
    (splitTextIntoChunks text maxLength).
Proof. apply chunks_fit. Qed.

End ByteBudget.

(** ** The line-based splitter keeps short lines whole *)

Section LineBased.

Import FuriganaApiAxios.

Variable line : jsstring.
Hypothesis line_not_empty : line <> [].

Implicit Types (st : SplitState) (cur piece : jsstring).

Lemma liesIn_refl : liesIn line line.
Proof. exists [], []. by rewrite app_nil_r. Qed.

Lemma liesIn_app_r cur extra : liesIn line cur -> liesIn line (cur ++ extra).
Proof.
  intros (before & after & ->). exists before, (after ++ extra).
  by rewrite <- !app_assoc.
Qed.

Lemma liesIn_app_l cur extra : liesIn line cur -> liesIn line (extra ++ cur).
Proof.
  intros (before & after & ->). exists (extra ++ before), after.
  by rewrite <- !app_assoc.
Qed.

Lemma liesIn_truthy cur : liesIn line cur -> truthy cur = true.
Proof.
  intros (before & after & ->). destruct line; [done|].
  by destruct before.
Qed.

Lemma held_pushed st cur' :
  held line st ->
  held line {| chunks := chunks st ++ [currentChunk st]; currentChunk := cur' |}.
Proof.
  intros [(chunk & Hin & Hlies)|Hcur]; left.
  - exists chunk. split; [|done]. apply elem_of_app. by left.
  - exists (currentChunk st). split; [|done]. apply elem_of_app. right.
    apply list_elem_of_here.
Qed.

Lemma pushOrExtend_held extend st piece :
  (forall cur, liesIn line cur -> liesIn line (extend cur piece)) ->
  held line st -> held line (pushOrExtend extend st piece).
Proof.
  intros Hextend Hst. unfold pushOrExtend.
  destruct (MAX_CHUNK_SIZE <? _)%nat; [by apply held_pushed|].
  destruct Hst as [Hchunks|Hcur]; [by left | right]. by apply Hextend.
Qed.

Lemma pushOrExtend_adds extend st :
  (forall cur, liesIn line (extend cur line)) ->
  held line (pushOrExtend extend st line).
Proof.
  intros Hextend. unfold pushOrExtend.
  destruct (MAX_CHUNK_SIZE <? _)%nat; right; [apply liesIn_refl | apply Hextend].
Qed.

Lemma appendLine_keeps cur piece :
  liesIn line cur -> liesIn line (appendLine cur piece).
Proof. apply liesIn_app_r. Qed.

Lemma appendLine_adds cur : liesIn line (appendLine cur line).
Proof.
  unfold appendLine. apply liesIn_app_l, liesIn_app_l, liesIn_refl.
Qed.

Lemma pageBreakLine_held st l : held line st -> held line (pageBreakLine st l).
Proof.
  intros Hst. unfold pageBreakLine.
  set (st1 := if truthy (hd [] (split l pageBreak))
              then pushOrExtend appendLine st (hd [] (split l pageBreak))
              else st).
  assert (held line st1) as Hst1.
  { subst st1. destruct (truthy _); [|done].
    apply pushOrExtend_held; [|done]. intros cur. apply appendLine_keeps. }
  clearbody st1.
  set (st2 := if truthy (currentChunk st1)
              then {| chunks := chunks st1 ++ [currentChunk st1];
                      currentChunk := [] |}
              else st1).
  assert (exists chunk, chunk ∈ chunks st2 /\ liesIn line chunk) as Hst2.
  { subst st2. destruct (truthy (currentChunk st1)) eqn:Hcur.
    - destruct (held_pushed st1 [] Hst1) as [H|H]; [done|].
      simpl in H. apply liesIn_truthy in H. done.
    - destruct Hst1 as [H|H]; [done|].
      apply liesIn_truthy in H. congruence. }
  clearbody st2.
  destruct (truthy (join _ _)); by left.
Qed.

Lemma segments_held segments st :
  held line st ->
  held line
    (foldl (pushOrExtend (fun currentChunk segment => currentChunk ++ segment))
       st segments).
Proof.
  revert st; induction segments as [|segment segments IH]; intros st Hst;
    [done|].
  apply IH, pushOrExtend_held; [|done]. intros cur. apply liesIn_app_r.
Qed.

Lemma lineStep_held st l : held line st -> held line (lineStep st l).
Proof.
  intros Hst. unfold lineStep.
  destruct (includes l pageBreak); [by apply pageBreakLine_held|].
  destruct (MAX_CHUNK_SIZE <? length l)%nat; [by apply segments_held|].
  apply pushOrExtend_held; [|done]. intros cur. apply appendLine_keeps.
Qed.

Lemma lineStep_adds st :
  includes line pageBreak = false -> length line <= MAX_CHUNK_SIZE ->
  held line (lineStep st line).
Proof.
  intros Hmarker Hlen. unfold lineStep. rewrite Hmarker.
  destruct (Nat.ltb_spec MAX_CHUNK_SIZE (length line)); [lia|].
  apply pushOrExtend_adds. apply appendLine_adds.
Qed.

Lemma lines_held ls st :
  includes line pageBreak = false -> length line <= MAX_CHUNK_SIZE ->
  held line st \/ line ∈ ls -> held line (foldl lineStep st ls).
Proof.
  intros Hmarker Hlen. revert st; induction ls as [|l ls IH]; intros st Hst.
  - destruct Hst as [?|Hin]; [done|]. by apply elem_of_nil in Hin.
  - cbn [foldl]. apply IH. destruct Hst as [Hst|Hin].
    + left. by apply lineStep_held.
    + apply elem_of_cons in Hin as [<-|Hin]; [left|by right].
      by apply lineStep_adds.
Qed.

(** A line without the marker that is not longer than 4000 code units is
    never cut by the line-based splitter: it lies whole inside one chunk. *)
Lemma line_splitter_keeps_short_lines text :
  line ∈ lines text ->
  includes line pageBreak = false ->
  length line <= MAX_CHUNK_SIZE ->
  exists chunk, chunk ∈ splitTextIntoChunks text /\ liesIn line chunk.
Proof.
  intros Hin Hmarker Hlen. unfold splitTextIntoChunks.
  pose proof (lines_held (split text [LF])
                {| chunks := []; currentChunk := [] |} Hmarker Hlen
                (or_intror Hin)) as Hheld.
  destruct (truthy (currentChunk (foldl lineStep _ _))) eqn:Hcur.
  - destruct (held_pushed _ [] Hheld) as [H|H]; [done|].
    simpl in H. apply liesIn_truthy in H. done.
  - destruct Hheld as [H|H]; [done|].
    apply liesIn_truthy in H. congruence.
Qed.

End LineBased.

(** ** Lines and the maximum chunk size *)

Lemma length_le_byteLength text :
  (Z.of_nat (length text) <= byteLength text)%Z.
Proof.
  induction text as [|char text IH]; simpl; [lia|].
  pose proof (charLength_pos char). lia.
Qed.



(** With the default maximum of 4000 bytes. *)
Lemma chunks_within_budget_witness :
  Forall (fun chunk => chunk <> [] /\ (byteLength chunk <= 4000)%Z)
    (FuriganaApi.splitTextIntoChunks (js "漢字は漢字です") 4000).
Proof. apply (chunks_within_budget 4000 (js "漢字は漢字です")). lia. Defined.


(** ** The line-based splitter *)

(** C1 (the line-based splitter departs from it). The marker of a line is
    dropped and nothing records where it stood: a｛改頁｝b and the two lines
    a｛改頁｝ and b give the same chunks, so no way of joining chunks gives
    back every input. *)
Theorem line_splitter_loses_page_break :
  FuriganaApiAxios.splitTextIntoChunks (js "a｛改頁｝b") = [js "a"; js "b"]
  /\ FuriganaApiAxios.splitTextIntoChunks (js "a｛改頁｝" ++ [LF] ++ js "b")
     = [js "a"; js "b"]
  /\ forall reconstruct : list jsstring -> jsstring,
       ~ (forall text,
            reconstruct (FuriganaApiAxios.splitTextIntoChunks text) = text).
Proof.
  assert (H1 : FuriganaApiAxios.splitTextIntoChunks (js "a｛改頁｝b")
               = [js "a"; js "b"]) by reflexivity.
  assert (H2 : FuriganaApiAxios.splitTextIntoChunks
                 (js "a｛改頁｝" ++ [LF] ++ js "b")
               = [js "a"; js "b"]) by reflexivity.
  split; [exact H1 | split; [exact H2 |]].
  intros reconstruct Hround.
  pose proof (Hround (js "a｛改頁｝b")) as E1.
  pose proof (Hround (js "a｛改頁｝" ++ [LF] ++ js "b")) as E2.
  rewrite H1 in E1. rewrite H2, E1 in E2. discriminate E2.
Qed.

(** Other losses of the line-based splitter: a leading empty line, and the
    line feed between two lines that end up in different chunks. *)
Example line_splitter_loses_line_feeds :
  FuriganaApiAxios.splitTextIntoChunks ([LF] ++ js "a") = [js "a"]
  /\ FuriganaApiAxios.splitTextIntoChunks
       (replicate 4000 97%N ++ [LF] ++ js "b")
     = [replicate 4000 97%N; js "b"].
Proof. split; vm_compute; reflexivity. Qed.

(** ** A marker across a chunk boundary *)

(** C8 (the code departs from it). The byte budget of the first chunk of
    [straddlingText] runs out inside the marker.  Neither chunk contains the
    marker, so both are sent to the service as they are, pieces of the marker
    included, and the service glosses the 改頁 of the marker; the skip table
    is not cleared, and the 漢 after the page break stays without ruby. *)
Theorem marker_across_chunks_is_sent :
  let run := FuriganaProcessor.process (js "id") 10 1 InkBracket mockService
               FuriganaProcessor.new straddlingText in
  (FuriganaApi.splitTextIntoChunks straddlingText FuriganaApi.defaultMaxLength,
   requests (snd run), fst run, skipInfo (snd run) !! 0x6F22%N)
  = ([js "漢" ++ filler ++ js "｛"; js "改頁｝漢"],
     [js "漢" ++ filler ++ js "｛"; js "改頁｝漢"],
     js "漢《かん》" ++ filler ++ js "｛改頁《かいぺーじ》｝漢",
     Some 10%Z).
Proof. vm_compute. reflexivity. Qed.

(** C3 (the code departs from it). A run crosses the marker of 漢｛改頁｝漢
    inside one chunk: the table is cleared and the 漢 after the marker is
    glossed again.  It crosses the marker of [straddlingText] between two
    chunks: 漢 is glossed before the marker, the table is not cleared (漢 is
    still recorded at the end of the run and still suppressed), and the 漢
    right after the marker stays without ruby. *)
Theorem page_break_across_chunks_is_no_reset :
  let run := FuriganaProcessor.process (js "id") 10 1 InkBracket mockService
               FuriganaProcessor.new in
  let after := snd (run straddlingText) in
  fst (run (js "漢｛改頁｝漢")) = js "漢《かん》｛改頁｝漢《かん》"
  /\ includes straddlingText pageBreak = true
  /\ take 5 (fst (run straddlingText)) = js "漢《かん》"
  /\ drop (length (fst (run straddlingText)) - 2) (fst (run straddlingText))
     = js "｝漢"
  /\ skipInfo after !! 0x6F22%N = Some 10%Z
  /\ FuriganaProcessor.shouldSkipRuby (skipInfo after) (js "漢") = true.
Proof. vm_compute. repeat split. Qed.

(** ** The earlier copies *)

(** A reply that spells a word differently from the chunk: the class as it
    is now passes over the word; its earlier copy writes the word into the
    result and loses the text at the cursor. *)
Example miss_in_both_copies :
  let words :=
    [ {| surface := js "感じ"; furigana := Some (js "かんじ");
         roman := None; subword := None |};
      {| surface := js "です"; furigana := None;
         roman := None; subword := None |} ] in
  fst (FuriganaProcessor.applyRubyFromResponse 10 InkBracket ∅ words
         (js "漢字です"))
  = js "漢字です"
  /\ fst (FuriganaProcessorPrototype.applyRubyFromResponse 10 InkBracket ∅
            words (js "漢字です"))
     = js "感じ《かんじ》字です".
Proof. split; vm_compute; reflexivity. Qed.

(** C6 (the code departs from it). The chunk １月の月 and an answer that
    spells its first word 1月, with a half-width digit, so that the word is
    not found.  Without that word the answer glosses the first 月.  With it,
    the class as it is now adds nothing for the word and goes on, but it has
    rendered the word before looking it up: 月 is in the skip table, and the
    月 of the chunk loses its ruby.  The earlier copy of the class writes the
    word that is not in the chunk into the result and drops the １. *)
Theorem alignment_miss_is_no_skip :
  let january := {| surface := js "1月"; furigana := Some (js "いちがつ");
                    roman := None; subword := None |} in
  let moon := {| surface := js "月"; furigana := Some (js "つき");
                 roman := None; subword := None |} in
  let chunk := js "１月の月" in
  let merged := FuriganaProcessor.applyRubyFromResponse 10 InkBracket ∅ in
  indexOf chunk (surface january) 0 = None
  /\ fst (merged [moon] chunk) = js "１月《つき》の月"
  /\ fst (merged [january; moon] chunk) = js "１月の月"
  /\ snd (merged [january; moon] chunk) !! 0x6708%N = Some 10%Z
  /\ fst (FuriganaProcessorPrototype.applyRubyFromResponse 10 InkBracket ∅
            [january; moon] chunk)
     = js "1月《いちがつ》月の月".
Proof. vm_compute. repeat split. Qed.

(** The line-based splitter measures a line in UTF-16 code units against a
    fixed maximum of 4000, and cuts a longer line only at its separators: a
    line of 4001 letters stays whole (after an empty chunk), a line of 4000
    letters and a full stop is cut before the full stop. *)
Example line_splitter_long_lines :
  FuriganaApiAxios.splitTextIntoChunks (replicate 4001 97%N)
  = [[]; replicate 4001 97%N]
  /\ FuriganaApiAxios.splitTextIntoChunks (replicate 4000 97%N ++ js "。")
     = [replicate 4000 97%N; js "。"].
Proof. split; vm_compute; reflexivity. Qed.

(** The byte-budget splitter encodes one code unit at a time, so a surrogate
    pair (4 bytes of UTF-8) counts for 6 and can be cut in two. *)
Example surrogate_pair_counts_six_bytes :
  byteLength (js "😀") = 6%Z
  /\ FuriganaApi.splitTextIntoChunks (js "😀") 4 = [[0xD83D%N]; [0xDE00%N]].
Proof. split; reflexivity. Qed.

(** ** The whole run *)

(** When the service fails for every chunk, the result of a run is its
    input: every chunk and every part comes back as it was, and the markers
    are put back where the parts were cut. *)
Theorem failing_service_returns_input clientId skipLength grade rubyStyle
    this text :
  fst (FuriganaProcessor.process clientId skipLength grade rubyStyle
         failingService this text) = text.
Proof.
  unfold FuriganaProcessor.process.
  rewrite processChunks_raw.
  - apply splitTextIntoChunks_round_trip.
  - intros [result that] chunk.
    unfold FuriganaProcessor.tryProcessChunk, FuriganaProcessor.processChunk.
    by destruct (trimIsEmpty chunk).
Qed.

(** * Further properties of the processor *)

Section ProcessorCoverage.

Import FuriganaProcessor.

Variable clientId : jsstring.
Variable skipLength : Z.
Variable grade : N.
Variable rubyStyle : RubyStyle.
Variable requestFurigana : nat -> jsstring -> jsstring -> N -> option (list Word).

Local Abbreviation updateSkipInfo := (updateSkipInfo skipLength).
Local Abbreviation glossOrSkip := (glossOrSkip skipLength rubyStyle).
Local Abbreviation subwordStep := (subwordStep skipLength rubyStyle).
Local Abbreviation applyRubyToWord := (applyRubyToWord skipLength rubyStyle).
Local Abbreviation wordStep := (wordStep skipLength rubyStyle).
Local Abbreviation applyRubyFromResponse :=
  (applyRubyFromResponse skipLength rubyStyle).
Local Abbreviation processChunk :=
  (processChunk clientId skipLength grade rubyStyle requestFurigana).
Local Abbreviation tryProcessChunk :=
  (tryProcessChunk clientId skipLength grade rubyStyle requestFurigana).
Local Abbreviation processParts :=
  (processParts clientId skipLength grade rubyStyle requestFurigana).
Local Abbreviation chunkStep :=
  (chunkStep clientId skipLength grade rubyStyle requestFurigana).
Local Abbreviation processChunks :=
  (processChunks clientId skipLength grade rubyStyle requestFurigana).
Local Abbreviation process :=
  (process clientId skipLength grade rubyStyle requestFurigana).

Implicit Types (info : gmap N Z) (this : Processor) (cur : Cursor).
Implicit Types (text surface piece : jsstring).

(** ** Ruby only adds text *)

Lemma applyRuby_adds surface furigana :
  surface `sublist_of` applyRuby rubyStyle surface furigana.
Proof.
  unfold applyRuby, FuriganaApi.applyInkBracketRuby, FuriganaApi.applyXhtmlRuby.
  destruct rubyStyle.
  - by apply sublist_inserts_r.
  - by apply sublist_inserts_l, sublist_inserts_r.
Qed.

Lemma glossOrSkip_adds info surface furigana :
  surface `sublist_of` fst (glossOrSkip info surface furigana).
Proof.
  unfold FuriganaProcessor.glossOrSkip.
  destruct (shouldSkipRuby info surface); [done | apply applyRuby_adds].
Qed.

Lemma covers_start text : covers text {| result := []; currentPos := 0 |}.
Proof. split; simpl; [lia | done]. Qed.

Lemma covers_step text cur surface piece startPos :
  covers text cur ->
  indexOf text surface (currentPos cur) = Some startPos ->
  surface `sublist_of` piece ->
  covers text {| result := withGap text cur startPos ++ piece;
                 currentPos := startPos + length surface |}.
Proof.
  intros [Hpos Hcur] Hfind Hpiece.
  apply indexOf_Some in Hfind as (Hle & Hlen & Htake); [|done].
  split; [done|]. cbn [result currentPos].
  rewrite <- take_take_drop, Htake. apply sublist_app; [|done].
  replace startPos with (currentPos cur + (startPos - currentPos cur)) at 1
    by lia.
  rewrite <- take_take_drop. unfold withGap.
  destruct (Nat.ltb_spec (currentPos cur) startPos).
  - by apply sublist_app.
  - replace (startPos - currentPos cur) with 0 by lia.
    by rewrite take_0, app_nil_r.
Qed.

Lemma covers_rest text cur :
  covers text cur -> text `sublist_of` withRest text cur.
Proof.
  intros [Hpos Hcur]. unfold withRest, substringFrom.
  destruct (Nat.ltb_spec (currentPos cur) (length text)).
  - rewrite <- (take_drop (currentPos cur) text) at 1. by apply sublist_app.
  - by rewrite take_ge in Hcur by lia.
Qed.

Lemma subword_loop_covers wordSurface subs cur info :
  covers wordSurface cur ->
  covers wordSurface (fst (foldl (subwordStep wordSurface) (cur, info) subs)).
Proof.
  revert cur info; induction subs as [|sub subs IH]; intros cur info Hcur;
    [done|].
  cbn [foldl]. unfold FuriganaProcessor.subwordStep at 2.
  destruct (indexOf wordSurface (SubWord.surface sub) (currentPos cur))
    as [startPos|] eqn:Hfind; [|by apply IH].
  destruct (reading (SubWord.furigana sub)) as [furigana|].
  - pose proof (glossOrSkip_adds info (SubWord.surface sub) furigana) as Hadds.
    destruct (glossOrSkip info (SubWord.surface sub) furigana)
      as [piece info'].
    apply IH. by eapply covers_step.
  - apply IH. by eapply covers_step.
Qed.

Lemma applyRubyToWord_adds info word :
  surface word `sublist_of` fst (applyRubyToWord info word).
Proof.
  unfold FuriganaProcessor.applyRubyToWord.
  destruct (reading (furigana word)) as [furigana|]; [|done].
  destruct (subword word) as [[|sub subs]|]; try apply glossOrSkip_adds.
  pose proof (subword_loop_covers (surface word) (sub :: subs) _ info
                (covers_start (surface word))) as Hloop.
  destruct (foldl _ _ (sub :: subs)) as [cur info'].
  by apply covers_rest.
Qed.

Lemma word_loop_covers originalText words cur info :
  covers originalText cur ->
  covers originalText (fst (foldl (wordStep originalText) (cur, info) words)).
Proof.
  revert cur info; induction words as [|word words IH]; intros cur info Hcur;
    [done|].
  cbn [foldl]. unfold FuriganaProcessor.wordStep at 2.
  pose proof (applyRubyToWord_adds info word) as Hadds.
  destruct (applyRubyToWord info word) as [processedWord info'].
  destruct (indexOf originalText (surface word) (currentPos cur))
    as [startPos|] eqn:Hfind; apply IH; [|done].
  by eapply covers_step.
Qed.

Lemma applyRubyFromResponse_adds info words originalText :
  originalText `sublist_of` fst (applyRubyFromResponse info words originalText).
Proof.
  unfold FuriganaProcessor.applyRubyFromResponse.
  pose proof (word_loop_covers originalText words _ info
                (covers_start originalText)) as Hloop.
  destruct (foldl _ _ words) as [cur info'].
  by apply covers_rest.
Qed.

Lemma tryProcessChunk_adds result this text :
  exists added,
    fst (tryProcessChunk (result, this) text) = result ++ added
    /\ text `sublist_of` added.
Proof.
  unfold FuriganaProcessor.tryProcessChunk, FuriganaProcessor.processChunk.
  destruct (trimIsEmpty text); [by exists text|].
  destruct (requestFurigana _ _ _ _) as [words|]; [|by exists text].
  pose proof (applyRubyFromResponse_adds (skipInfo this) words text) as Hadds.
  destruct (applyRubyFromResponse (skipInfo this) words text)
    as [processed info'].
  by exists processed.
Qed.

Lemma processParts_adds parts result this :
  parts <> [] ->
  exists added,
    fst (processParts (result, this) parts) = result ++ added
    /\ join parts pageBreak `sublist_of` added.
Proof.
  revert result this; induction parts as [|part parts IH];
    intros result this Hparts; [done|].
  assert (exists added,
             fst (processParts (result, this) [part]) = result ++ added
             /\ part `sublist_of` added) as (added1 & Hfirst & Hsub1).
  { rewrite processParts_last. destruct part as [|c part].
    - exists []. by rewrite app_nil_r.
    - apply tryProcessChunk_adds. }
  destruct parts as [|next rest]; [by exists added1|].
  rewrite processParts_cons.
  destruct (processParts (result, this) [part]) as [result1 this1].
  simpl in Hfirst. subst result1. cbn [crossPageBreak].
  destruct (IH ((result ++ added1) ++ pageBreak)
              {| skipInfo := ∅; requests := requests this1 |} ltac:(done))
    as (added2 & Hrest & Hsub2).
  exists (added1 ++ pageBreak ++ added2). split.
  - rewrite Hrest. by rewrite <- !app_assoc.
  - change (join (part :: next :: rest) pageBreak)
      with (part ++ pageBreak ++ join (next :: rest) pageBreak).
    apply sublist_app; [done|]. by apply sublist_app.
Qed.

Lemma chunkStep_adds result this chunk :
  exists added,
    fst (chunkStep (result, this) chunk) = result ++ added
    /\ chunk `sublist_of` added.
Proof.
  unfold FuriganaProcessor.chunkStep.
  destruct (includes chunk pageBreak); [|apply tryProcessChunk_adds].
  destruct (processParts_adds (split chunk pageBreak) result this
              (splitScan_nonempty pageBreak 0 chunk)) as (added & Heq & Hsub).
  exists added. split; [done|]. by rewrite join_split in Hsub.
Qed.

Lemma processChunks_adds chunks result this :
  exists added,
    fst (processChunks (result, this) chunks) = result ++ added
    /\ concat chunks `sublist_of` added.
Proof.
  revert result this; induction chunks as [|chunk chunks IH];
    intros result this.
  - exists []. by rewrite app_nil_r.
  - unfold FuriganaProcessor.processChunks. cbn [foldl].
    fold (processChunks (chunkStep (result, this) chunk) chunks).
    destruct (chunkStep_adds result this chunk) as (added1 & Hfirst & Hsub1).
    destruct (chunkStep (result, this) chunk) as [result1 this1].
    simpl in Hfirst. subst result1.
    destruct (IH (result ++ added1) this1) as (added2 & Hrest & Hsub2).
    exists (added1 ++ added2). split.
    + rewrite Hrest. by rewrite <- app_assoc.
    + by apply sublist_app.
Qed.

(** Whatever the service answers, the result of a run holds every code unit
    of the input, in the order of the input: ruby is only ever added. *)
Theorem process_keeps_input this text :
  text `sublist_of` fst (process this text).
Proof.
  unfold FuriganaProcessor.process.
  destruct (processChunks_adds
              (FuriganaApi.splitTextIntoChunks text FuriganaApi.defaultMaxLength)
              [] this) as (added & Heq & Hsub).
  rewrite Heq. by rewrite splitTextIntoChunks_round_trip in Hsub.
Qed.

(** ** The skip table changes by [updateSkipInfo] and by the reset only *)

Section TableInduction.

Variable P : gmap N Z -> Prop.
Hypothesis P_update : forall info surface, P info -> P (updateSkipInfo info surface).
Hypothesis P_empty : P ∅.

Lemma glossOrSkip_table info surface furigana :
  P info -> P (snd (glossOrSkip info surface furigana)).
Proof.
  intros Hinfo. unfold FuriganaProcessor.glossOrSkip.
  destruct (shouldSkipRuby info surface); [done | by apply P_update].
Qed.

Lemma subword_loop_table wordSurface subs cur info :
  P info -> P (snd (foldl (subwordStep wordSurface) (cur, info) subs)).
Proof.
  revert cur info; induction subs as [|sub subs IH]; intros cur info Hinfo;
    [done|].
  cbn [foldl]. unfold FuriganaProcessor.subwordStep at 2.
  destruct (indexOf wordSurface (SubWord.surface sub) (currentPos cur));
    [|by apply IH].
  destruct (reading (SubWord.furigana sub)) as [furigana|]; [|by apply IH].
  pose proof (glossOrSkip_table info (SubWord.surface sub) furigana Hinfo).
  destruct (glossOrSkip info (SubWord.surface sub) furigana). by apply IH.
Qed.

Lemma applyRubyToWord_table info word :
  P info -> P (snd (applyRubyToWord info word)).
Proof.
  intros Hinfo. unfold FuriganaProcessor.applyRubyToWord.
  destruct (reading (furigana word)) as [furigana|]; [|done].
  destruct (subword word) as [[|sub subs]|];
    try by apply glossOrSkip_table.
  pose proof (subword_loop_table (surface word) (sub :: subs)
                {| result := []; currentPos := 0 |} info Hinfo).
  by destruct (foldl _ _ (sub :: subs)).
Qed.

Lemma word_loop_table originalText words cur info :
  P info -> P (snd (foldl (wordStep originalText) (cur, info) words)).
Proof.
  revert cur info; induction words as [|word words IH]; intros cur info Hinfo;
    [done|].
  cbn [foldl]. unfold FuriganaProcessor.wordStep at 2.
  pose proof (applyRubyToWord_table info word Hinfo).
  destruct (applyRubyToWord info word) as [processedWord info'].
  destruct (indexOf originalText (surface word) (currentPos cur));
    by apply IH.
Qed.

Lemma tryProcessChunk_table acc text :
  P (skipInfo (snd acc)) -> P (skipInfo (snd (tryProcessChunk acc text))).
Proof.
  destruct acc as [result this]. intros Hinfo.
  unfold FuriganaProcessor.tryProcessChunk, FuriganaProcessor.processChunk.
  destruct (trimIsEmpty text); [done|].
  destruct (requestFurigana _ _ _ _) as [words|]; [|done].
  unfold FuriganaProcessor.applyRubyFromResponse.
  pose proof (word_loop_table text words {| result := []; currentPos := 0 |}
                (skipInfo this) Hinfo).
  by destruct (foldl _ _ words).
Qed.

Lemma processParts_table parts acc :
  P (skipInfo (snd acc)) -> P (skipInfo (snd (processParts acc parts))).
Proof.
  revert acc; induction parts as [|part parts IH]; intros acc Hacc; [done|].
  destruct parts as [|next rest].
  - rewrite processParts_last.
    destruct (truthy part); [by apply tryProcessChunk_table | done].
  - rewrite processParts_cons. apply IH.
    by destruct (processParts acc [part]).
Qed.

Lemma processChunks_table chunks acc :
  P (skipInfo (snd acc)) -> P (skipInfo (snd (processChunks acc chunks))).
Proof.
  revert acc; induction chunks as [|chunk chunks IH]; intros acc Hacc;
    [done|].
  apply IH. unfold FuriganaProcessor.chunkStep.
  destruct (includes chunk pageBreak);
    [by apply processParts_table | by apply tryProcessChunk_table].
Qed.

End TableInduction.

Lemma updateSkipInfo_freshCounts info surface :
  freshCounts skipLength info ->
  freshCounts skipLength (updateSkipInfo info surface).
Proof.
  unfold FuriganaProcessor.updateSkipInfo.
  destruct (Z.leb_spec skipLength 0); [done|].
  revert info; induction surface as [|char surface IH]; intros info Hinfo;
    [done|].
  cbn [foldl]. apply IH. destruct (isKanji char) eqn:Hchar; [|done].
  intros kanji count. destruct (decide (char = kanji)) as [<-|Hne].
  - rewrite lookup_insert_eq. by intros [= <-].
  - rewrite lookup_insert_ne by done. apply Hinfo.
Qed.

(** At the end of a run of a new processor every key of the skip table is a
    kanji and every count is the skip length as it was given: no other
    character, and no other number, ever gets into the table, and no count
    is ever lowered. *)
Theorem skip_table_holds_kanji_only text :
  freshCounts skipLength (skipInfo (snd (process new text))).
Proof.
  apply (processChunks_table (freshCounts skipLength)).
  - apply updateSkipInfo_freshCounts.
  - intros kanji count. by rewrite lookup_empty.
  - intros kanji count. simpl. by rewrite lookup_empty.
Qed.

(** ** Blank input *)

Lemma trimIsEmpty_no_marker text :
  trimIsEmpty text = true -> includes text pageBreak = false.
Proof.
  intros Hblank. unfold includes.
  destruct (indexOf text pageBreak 0) as [startPos|] eqn:Hfind; [|done].
  apply indexOf_Some in Hfind as (_ & _ & Htake); [|lia].
  rewrite <- (take_drop startPos text) in Hblank.
  rewrite <- (take_drop (length pageBreak) (drop startPos text)) in Hblank.
  rewrite Htake in Hblank. unfold trimIsEmpty in Hblank.
  rewrite !forallb_app in Hblank.
  apply andb_true_iff in Hblank as [_ Hblank].
  apply andb_true_iff in Hblank as [Hblank _].
  by vm_compute in Hblank.
Qed.

Lemma blank_chunks chunks :
  trimIsEmpty (concat chunks) = true ->
  Forall (fun chunk => trimIsEmpty chunk = true) chunks.
Proof.
  induction chunks as [|chunk chunks IH]; intros Hblank; [constructor|].
  unfold trimIsEmpty in *. simpl in Hblank. rewrite forallb_app in Hblank.
  apply andb_true_iff in Hblank as [Hchunk Hrest].
  constructor; [done | by apply IH].
Qed.

Lemma processChunks_blank chunks result this :
  Forall (fun chunk => trimIsEmpty chunk = true) chunks ->
  processChunks (result, this) chunks = (result ++ concat chunks, this).
Proof.
  intros Hchunks. revert result;
    induction Hchunks as [|chunk chunks Hchunk _ IH]; intros result.
  - by rewrite app_nil_r.
  - unfold FuriganaProcessor.processChunks. cbn [foldl].
    unfold FuriganaProcessor.chunkStep at 2.
    rewrite (trimIsEmpty_no_marker chunk Hchunk).
    unfold FuriganaProcessor.tryProcessChunk, FuriganaProcessor.processChunk.
    rewrite Hchunk.
    fold (processChunks (result ++ chunk, this) chunks). rewrite IH.
    by rewrite <- app_assoc.
Qed.

(** An input made of white space and line terminators only comes back as it
    is, and nothing is sent to the service: the processor is left as it
    was. *)
Theorem blank_input_is_not_sent this text :
  trimIsEmpty text = true -> process this text = (text, this).
Proof.
  intros Hblank. unfold FuriganaProcessor.process.
  rewrite processChunks_blank.
  - by rewrite splitTextIntoChunks_round_trip.
  - apply blank_chunks. by rewrite splitTextIntoChunks_round_trip.
Qed.

(** ** Answers without readings *)

Lemma word_loop_without_readings originalText words cur info :
  Forall (fun word => reading (furigana word) = None) words ->
  currentPos cur <= length originalText ->
  exists cur',
    foldl (wordStep originalText) (cur, info) words = (cur', info)
    /\ withRest originalText cur'
       = result cur ++ drop (currentPos cur) originalText.
Proof.
  intros Hwords. revert cur;
    induction Hwords as [|word words Hword _ IH]; intros cur Hpos.
  - exists cur. split; [done|]. unfold withRest, substringFrom.
    destruct (Nat.ltb_spec (currentPos cur) (length originalText)); [done|].
    by rewrite drop_ge, app_nil_r by lia.
  - cbn [foldl]. unfold FuriganaProcessor.wordStep at 2.
    unfold FuriganaProcessor.applyRubyToWord. rewrite Hword.
    destruct (indexOf originalText (surface word) (currentPos cur))
      as [startPos|] eqn:Hfind; [|by apply IH].
    apply indexOf_Some in Hfind as (Hle & Hlen & Htake); [|done].
    destruct (IH {| result := withGap originalText cur startPos ++ surface word;
                    currentPos := startPos + length (surface word) |}
                ltac:(done)) as (cur' & Hloop & Hrest).
    exists cur'. split; [done|]. rewrite Hrest. cbn [result currentPos].
    rewrite <- (cut_at_match originalText (surface word) (currentPos cur)
                  startPos) by done.
    unfold withGap. destruct (Nat.ltb_spec (currentPos cur) startPos).
    + by rewrite <- !app_assoc.
    + unfold substring. replace (startPos - currentPos cur) with 0 by lia.
      by rewrite take_0, <- app_assoc.
Qed.

(** When no word of any answer carries a reading, a run gives back its
    input exactly. *)
Theorem answers_without_readings_change_nothing this text :
  (forall n sent words,
      requestFurigana n sent clientId grade = Some words ->
      Forall (fun word => reading (furigana word) = None) words) ->
  fst (process this text) = text.
Proof.
  intros Hsilent. unfold FuriganaProcessor.process.
  rewrite (processChunks_raw clientId skipLength grade rubyStyle
             requestFurigana).
  - apply splitTextIntoChunks_round_trip.
  - intros [result that] sent.
    unfold FuriganaProcessor.tryProcessChunk, FuriganaProcessor.processChunk.
    destruct (trimIsEmpty sent); [done|].
    destruct (requestFurigana _ _ _ _) as [words|] eqn:Hanswer; [|done].
    unfold FuriganaProcessor.applyRubyFromResponse.
    destruct (word_loop_without_readings sent words
                {| result := []; currentPos := 0 |} (skipInfo that)
                (Hsilent _ _ _ Hanswer) ltac:(simpl; lia))
      as (cur' & -> & Hrest).
    simpl. by rewrite Hrest.
Qed.

End ProcessorCoverage.

(** An input of white space. *)
Lemma blank_input_witness :
  FuriganaProcessor.process (js "id") 10 1 InkBracket mockService
    FuriganaProcessor.new (js "  " ++ [LF] ++ js " ")
  = (js "  " ++ [LF] ++ js " ", FuriganaProcessor.new).
Proof.
  apply (blank_input_is_not_sent (js "id") 10 1%N InkBracket mockService
           FuriganaProcessor.new (js "  " ++ [LF] ++ js " ")).
  reflexivity.
Defined.

(** The service that gives no reading. *)
Lemma answers_without_readings_witness :
  fst (FuriganaProcessor.process (js "id") 10 1 InkBracket silentService
         FuriganaProcessor.new (js "漢字は漢字です｛改頁｝漢字"))
  = js "漢字は漢字です｛改頁｝漢字".
Proof.
  apply (answers_without_readings_change_nothing (js "id") 10 1%N InkBracket
           silentService).
  intros n sent words [= <-]. apply Forall_forall.
  intros word Hword. apply list_elem_of_fmap in Hword as (char & -> & _).
  reflexivity.
Defined.

(** ** What is sent does not depend on the answers *)

Section TwoRuns.

Import FuriganaProcessor.

Variables clientId1 clientId2 : jsstring.
Variables skipLength1 skipLength2 : Z.
Variables grade1 grade2 : N.
Variables rubyStyle1 rubyStyle2 : RubyStyle.
Variables service1 service2 :
  nat -> jsstring -> jsstring -> N -> option (list Word).

Local Abbreviation run1 f := (f clientId1 skipLength1 grade1 rubyStyle1 service1).
Local Abbreviation run2 f := (f clientId2 skipLength2 grade2 rubyStyle2 service2).

Lemma tryProcessChunk_same_requests acc1 acc2 text :
  requests (snd acc1) = requests (snd acc2) ->
  requests (snd (run1 tryProcessChunk acc1 text))
  = requests (snd (run2 tryProcessChunk acc2 text)).
Proof.
  destruct acc1 as [result1 this1], acc2 as [result2 this2]. simpl.
  intros Hlog. unfold tryProcessChunk, processChunk.
  destruct (trimIsEmpty text); [done|]. rewrite Hlog.
  destruct (service1 _ _ _ _) as [words1|], (service2 _ _ _ _) as [words2|];
    repeat match goal with
           | |- context [applyRubyFromResponse ?a ?b ?c ?d ?e] =>
               destruct (applyRubyFromResponse a b c d e)
           end; done.
Qed.

Lemma processParts_same_requests parts acc1 acc2 :
  requests (snd acc1) = requests (snd acc2) ->
  requests (snd (run1 processParts acc1 parts))
  = requests (snd (run2 processParts acc2 parts)).
Proof.
  revert acc1 acc2; induction parts as [|part parts IH];
    intros acc1 acc2 Hlog; [done|].
  assert (requests (snd (run1 processParts acc1 [part]))
          = requests (snd (run2 processParts acc2 [part]))) as Hfirst.
  { rewrite !processParts_last.
    destruct (truthy part); [by apply tryProcessChunk_same_requests | done]. }
  destruct parts as [|next rest]; [done|].
  rewrite !processParts_cons. apply IH.
  destruct (run1 processParts acc1 [part]), (run2 processParts acc2 [part]).
  done.
Qed.

Lemma processChunks_same_requests chunks acc1 acc2 :
  requests (snd acc1) = requests (snd acc2) ->
  requests (snd (run1 processChunks acc1 chunks))
  = requests (snd (run2 processChunks acc2 chunks)).
Proof.
  revert acc1 acc2; induction chunks as [|chunk chunks IH];
    intros acc1 acc2 Hlog; [done|].
  apply IH. unfold chunkStep. destruct (includes chunk pageBreak).
  - by apply processParts_same_requests.
  - by apply tryProcessChunk_same_requests.
Qed.

(** The texts that a run sends to the service, and their order, are fixed by
    the input alone: they are the same whatever the service answers or
    whether it fails, and whatever the skip length, the grade and the
    style. *)
Theorem requests_depend_on_input_only text :
  requests (snd (run1 process new text))
  = requests (snd (run2 process new text)).
Proof. by apply processChunks_same_requests. Qed.

End TwoRuns.

(** ** The method that counts down *)

Section CountDown.

Import FuriganaProcessor.

Implicit Types (info : gmap N Z).

(** A count after [n] calls of [decrementSkipCounts]. *)
Lemma decrementSkipCounts_iter n info kanji :
  Nat.iter n decrementSkipCounts info !! kanji
  = (fun count => if (0 <? count)%Z
                  then Z.max 0 (count - Z.of_nat n) else count)
      <$> info !! kanji.
Proof.
  induction n as [|n IH].
  - simpl. destruct (info !! kanji) as [count|]; [|done]. simpl. f_equal.
    destruct (Z.ltb_spec 0 count); lia.
  - rewrite Nat.iter_succ. unfold decrementSkipCounts at 1.
    rewrite lookup_fmap, IH.
    destruct (info !! kanji) as [count|]; [|done]. simpl. f_equal.
    destruct (Z.ltb_spec 0 count);
      [destruct (Z.ltb_spec 0 (Z.max 0 (count - Z.of_nat n)))|
       destruct (Z.ltb_spec 0 count)]; lia.
Qed.

(** [decrementSkipCounts], which no method calls, would give the skip window:
    a kanji recorded with a positive count is still skipped after fewer
    calls than its count, and once every count has been used up nothing is
    skipped any more.  The method never adds or removes a key and never
    makes a count negative. *)
Theorem decrementSkipCounts_window n info :
  (forall kanji count surface,
      info !! kanji = Some count -> isKanji kanji = true -> kanji ∈ surface ->
      (Z.of_nat n < count)%Z ->
      shouldSkipRuby (Nat.iter n decrementSkipCounts info) surface = true)
  /\ (forall surface,
         (forall kanji count,
             info !! kanji = Some count -> (count <= Z.of_nat n)%Z) ->
         shouldSkipRuby (Nat.iter n decrementSkipCounts info) surface = false)
  /\ (forall kanji,
         is_Some (Nat.iter n decrementSkipCounts info !! kanji)
         <-> is_Some (info !! kanji))
  /\ (forall kanji count count',
         info !! kanji = Some count -> (0 <= count)%Z ->
         Nat.iter n decrementSkipCounts info !! kanji = Some count' ->
         (0 <= count' <= count)%Z).
Proof.
  split; [|split; [|split]].
  - intros kanji count surface Hcount Hkanji Hin Hn.
    eapply (shouldSkipRuby_recorded _ surface kanji); [done..| |].
    + rewrite decrementSkipCounts_iter, Hcount. simpl. reflexivity.
    + destruct (Z.ltb_spec 0 count); lia.
  - intros surface Hused. unfold shouldSkipRuby.
    destruct (hasKanji surface); [|done]. simpl.
    induction surface as [|char surface IH]; [done|].
    cbn [existsb]. rewrite IH, orb_false_r.
    rewrite decrementSkipCounts_iter.
    destruct (info !! char) as [count|] eqn:Hcount; simpl;
      [|by rewrite andb_false_r].
    apply Hused in Hcount.
    destruct (Z.ltb_spec 0 count);
      [destruct (Z.ltb_spec 0 (Z.max 0 (count - Z.of_nat n)))|
       destruct (Z.ltb_spec 0 count)]; try lia; by rewrite andb_false_r.
  - intros kanji. rewrite decrementSkipCounts_iter. apply fmap_is_Some.
  - intros kanji count count' Hcount Hpos.
    rewrite decrementSkipCounts_iter, Hcount. simpl. intros [= <-].
    destruct (Z.ltb_spec 0 count); lia.
Qed.

End CountDown.

(** 漢 recorded with the count 2: skipped after one call, free after two. *)
Lemma decrementSkipCounts_window_witness :
  FuriganaProcessor.shouldSkipRuby
    (Nat.iter 1 FuriganaProcessor.decrementSkipCounts {[0x6F22%N := 2%Z]})
    (js "漢") = true
  /\ FuriganaProcessor.shouldSkipRuby
       (Nat.iter 2 FuriganaProcessor.decrementSkipCounts {[0x6F22%N := 2%Z]})
       (js "漢") = false.
Proof.
  split.
  - apply (proj1 (decrementSkipCounts_window 1 _) 0x6F22%N 2%Z).
    + apply lookup_singleton_eq.
    + reflexivity.
    + change (js "漢") with [0x6F22%N]. apply list_elem_of_here.
    + lia.
  - apply (proj1 (proj2 (decrementSkipCounts_window 2 _))).
    intros kanji count [_ <-]%lookup_singleton_Some. lia.
Defined.

(** * Further properties of the splitters and renderers *)

Section GreedyChunks.

Import FuriganaApi.

Variable maxLength : Z.

Implicit Types (st : SplitState) (chunk next : jsstring).

Lemma last_cons_default chunk rest (d d' : jsstring) :
  List.last (chunk :: rest) d = List.last (chunk :: rest) d'.
Proof.
  revert chunk; induction rest as [|c rest IH]; intros chunk; [done|].
  change (List.last (c :: rest) d = List.last (c :: rest) d'). apply IH.
Qed.

Lemma closedWhenFull_snoc chunk rest next :
  closedWhenFull maxLength chunk (rest ++ [next])
  <-> closedWhenFull maxLength chunk rest
      /\ fitsNoMore maxLength (List.last rest chunk) next.
Proof.
  revert chunk; induction rest as [|c rest IH]; intros chunk.
  - simpl. tauto.
  - cbn [app closedWhenFull]. rewrite IH.
    destruct rest as [|c' rest]; [simpl; tauto|].
    rewrite (last_cons_default c' rest c chunk).
    change (List.last (c :: c' :: rest) chunk)
      with (List.last (c' :: rest) chunk). tauto.
Qed.

Lemma fitsNoMore_extend chunk next extra :
  fitsNoMore maxLength chunk next -> fitsNoMore maxLength chunk (next ++ extra).
Proof. by destruct next. Qed.

Lemma greedy_extend_last chunks chunk extra :
  greedy maxLength (chunks ++ [chunk]) ->
  greedy maxLength (chunks ++ [chunk ++ extra]).
Proof.
  destruct chunks as [|c rest]; [done|]. cbn [app greedy].
  rewrite !closedWhenFull_snoc. intros [Hrest Hlast].
  split; [done | by apply fitsNoMore_extend].
Qed.

Lemma greedy_push chunks chunk next :
  greedy maxLength (chunks ++ [chunk]) ->
  fitsNoMore maxLength chunk next ->
  greedy maxLength ((chunks ++ [chunk]) ++ [next]).
Proof.
  intros Hgreedy Hnext. destruct chunks as [|c rest].
  - simpl. done.
  - cbn [app greedy] in *. rewrite closedWhenFull_snoc.
    split; [done|]. by rewrite last_last.
Qed.

Lemma greedy_init chunks chunk :
  greedy maxLength (chunks ++ [chunk]) -> greedy maxLength chunks.
Proof.
  destruct chunks as [|c rest]; [done|]. cbn [app greedy].
  rewrite closedWhenFull_snoc. tauto.
Qed.

Lemma splitLoop_greedy text st :
  currentLength st = byteLength (currentChunk st) ->
  greedy maxLength (chunks st ++ [currentChunk st]) ->
  currentLength (splitLoop maxLength st text)
  = byteLength (currentChunk (splitLoop maxLength st text))
  /\ greedy maxLength
       (chunks (splitLoop maxLength st text)
          ++ [currentChunk (splitLoop maxLength st text)]).
Proof.
  revert st; induction text as [|char text IH]; intros st Hlen Hgreedy;
    [done|].
  rewrite splitLoop_cons. apply IH; unfold splitStep, flushIfFull;
    destruct (Z.gtb_spec (currentLength st + charLength char) maxLength);
    cbn [chunks currentChunk currentLength].
  - simpl. lia.
  - rewrite byteLength_app. simpl. lia.
  - apply greedy_push; [done|]. simpl. lia.
  - by apply greedy_extend_last.
Qed.

(** The byte-budget splitter packs greedily: a chunk is closed only when the
    next character of the text would take it over the maximum. *)
Theorem chunks_are_closed_when_full text :
  greedy maxLength (splitTextIntoChunks text maxLength).
Proof.
  unfold splitTextIntoChunks.
  set (st0 := {| chunks := []; currentChunk := []; currentLength := 0 |}).
  destruct (splitLoop_greedy text st0) as [_ Hgreedy]; [done..|].
  unfold finish. destruct (truthy _); [done | by eapply greedy_init].
Qed.

(** The byte-budget splitter gives no chunk at all exactly for the empty
    text. *)
Theorem no_chunks_iff_empty text :
  splitTextIntoChunks text maxLength = [] <-> text = [].
Proof.
  split.
  - intros Hnone.
    by rewrite <- (splitTextIntoChunks_round_trip maxLength text), Hnone.
  - by intros ->.
Qed.

End GreedyChunks.

Section LineBasedShortText.

Import FuriganaApiAxios.

Implicit Types (st : SplitState) (cur line text : jsstring).

Lemma liesIn_join line parts sep :
  line ∈ parts -> liesIn line (join parts sep).
Proof.
  induction parts as [|part parts IH]; intros Hin;
    [by apply elem_of_nil in Hin|].
  destruct parts as [|next rest].
  - apply list_elem_of_singleton in Hin as ->. exists [], [].
    simpl. by rewrite app_nil_r.
  - change (join (part :: next :: rest) sep)
      with (part ++ sep ++ join (next :: rest) sep).
    apply elem_of_cons in Hin as [->|Hin].
    + exists [], (sep ++ join (next :: rest) sep). done.
    + destruct (IH Hin) as (before & after & ->).
      exists (part ++ sep ++ before), after. by rewrite <- !app_assoc.
Qed.

Lemma includes_liesIn line text needle :
  liesIn line text -> includes text needle = false ->
  includes line needle = false.
Proof.
  intros (before & after & ->) Htext.
  destruct (includes line needle) eqn:Hline; [|done].
  unfold includes in Hline.
  destruct (indexOf line needle 0) as [startPos|] eqn:Hfind; [|done].
  apply indexOf_Some in Hfind as (_ & _ & Htake); [|lia].
  rewrite <- (take_drop startPos line) in Htext.
  rewrite <- (take_drop (length needle) (drop startPos line)) in Htext.
  rewrite Htake in Htext.
  rewrite <- !app_assoc in Htext. rewrite app_assoc in Htext.
  by rewrite includes_app in Htext.
Qed.

Lemma join_cons_length part parts sep :
  length part <= length (join (part :: parts) sep).
Proof. destruct parts; simpl; [done|]. rewrite length_app. lia. Qed.

Lemma join_merge cur line rest sep :
  join ((cur ++ sep ++ line) :: rest) sep = join (cur :: line :: rest) sep.
Proof. destruct rest; simpl; by rewrite <- ?app_assoc. Qed.

Lemma short_lines_extend ls cur :
  cur <> [] ->
  Forall (fun line => includes line pageBreak = false) ls ->
  length (join (cur :: ls) [LF]) <= MAX_CHUNK_SIZE ->
  foldl lineStep {| chunks := []; currentChunk := cur |} ls
  = {| chunks := []; currentChunk := join (cur :: ls) [LF] |}.
Proof.
  intros Hcur Hls. revert cur Hcur;
    induction Hls as [|line ls Hline _ IH]; intros cur Hcur Hlen; [done|].
  cbn [foldl]. rewrite <- join_merge in Hlen |- *.
  pose proof (join_cons_length (cur ++ [LF] ++ line) ls [LF]) as Hfirst.
  rewrite !length_app in Hfirst. cbn [length] in Hfirst.
  assert (lineStep {| chunks := []; currentChunk := cur |} line
          = {| chunks := []; currentChunk := cur ++ [LF] ++ line |}) as ->.
  { unfold lineStep. rewrite Hline.
    destruct (Nat.ltb_spec MAX_CHUNK_SIZE (length line)); [lia|].
    unfold pushOrExtend. cbn [currentChunk chunks].
    destruct (Nat.ltb_spec MAX_CHUNK_SIZE (length cur + length line)); [lia|].
    unfold appendLine. by destruct cur. }
  apply IH; [by destruct cur | done].
Qed.

(** The line-based splitter gives back a short text as one chunk, unchanged:
    a text without the marker, of at most 4000 code units, whose first line
    is not empty. *)
Theorem short_text_is_one_chunk text :
  includes text pageBreak = false ->
  length text <= MAX_CHUNK_SIZE ->
  hd [] (lines text) <> [] ->
  splitTextIntoChunks text = [text].
Proof.
  intros Hmarker Hlen Hfirst. unfold splitTextIntoChunks.
  pose proof (join_split text [LF] ltac:(done)) as Hjoin.
  assert (Forall (fun line => includes line pageBreak = false) (split text [LF]))
    as Hlines.
  { apply Forall_forall. intros line Hin.
    apply (includes_liesIn line text); [|done].
    rewrite <- Hjoin. by apply liesIn_join. }
  unfold lines in Hfirst.
  destruct (split text [LF]) as [|first ls]; [done|]. simpl in Hfirst.
  apply Forall_cons in Hlines as [Hline Hlines].
  cbn [foldl].
  assert (lineStep {| chunks := []; currentChunk := [] |} first
          = {| chunks := []; currentChunk := first |}) as ->.
  { pose proof (join_cons_length first ls [LF]) as Hle. rewrite Hjoin in Hle.
    unfold lineStep. rewrite Hline.
    destruct (Nat.ltb_spec MAX_CHUNK_SIZE (length first)); [lia|].
    unfold pushOrExtend. cbn [currentChunk chunks].
    destruct (Nat.ltb_spec MAX_CHUNK_SIZE (length (@nil CodeUnit) + length first));
      [simpl in *; lia | done]. }
  rewrite short_lines_extend; [|done|done|by rewrite Hjoin].
  cbn [currentChunk chunks]. rewrite Hjoin.
  destruct text; [|done]. destruct first; [done|]. by destruct ls.
Qed.

End LineBasedShortText.

(** Two lines. *)
Lemma short_text_witness :
  FuriganaApiAxios.splitTextIntoChunks (js "漢字" ++ [LF] ++ js "かな")
  = [js "漢字" ++ [LF] ++ js "かな"].
Proof.
  apply short_text_is_one_chunk.
  - reflexivity.
  - vm_compute. lia.
  - discriminate.
Defined.

Section PerCharacter.

Import FuriganaApiAxios.

Implicit Types (word furigana : jsstring).

Lemma perCharacter_adds opening closing furigana word kanjiIndex :
  (forall char, char `sublist_of` opening char) ->
  word `sublist_of` perCharacter opening closing furigana word kanjiIndex.
Proof.
  intros Hopening. revert kanjiIndex; induction word as [|char word IH];
    intros kanjiIndex; [done|].
  cbn [perCharacter]. destruct (isKanji char);
    [destruct (furigana !! kanjiIndex)|]; try by apply sublist_skip.
  change (char :: word) with ([char] ++ word).
  apply sublist_app; [apply Hopening|]. by apply sublist_inserts_l.
Qed.

Lemma perCharacter_no_kanji opening closing furigana word kanjiIndex :
  hasKanji word = false ->
  perCharacter opening closing furigana word kanjiIndex = word.
Proof.
  revert kanjiIndex; induction word as [|char word IH]; intros kanjiIndex;
    [done|].
  unfold hasKanji. cbn [existsb perCharacter].
  intros [Hchar Hword]%orb_false_iff. rewrite Hchar. by rewrite IH.
Qed.

(** The per-character renderers only add text to the word, in both styles,
    and a word without kanji comes back as it is. *)
Theorem per_character_ruby_only_adds word furigana :
  word `sublist_of` applyInkBracketRuby word furigana
  /\ word `sublist_of` applyXhtmlRuby word furigana
  /\ (hasKanji word = false ->
      applyInkBracketRuby word furigana = word
      /\ applyXhtmlRuby word furigana = word).
Proof.
  unfold applyInkBracketRuby, applyXhtmlRuby.
  destruct (negb (truthy furigana) || strEq word furigana); [done|].
  split; [|split].
  - apply perCharacter_adds. intros char. by apply sublist_inserts_r.
  - apply perCharacter_adds. intros char.
    by apply sublist_inserts_l, sublist_inserts_r.
  - intros Hkanji. by rewrite !perCharacter_no_kanji.
Qed.

End PerCharacter.

(** * The two copies of the merge *)

Section Copies.

Variable skipLength : Z.
Variable rubyStyle : RubyStyle.

Local Abbreviation current f := (f skipLength rubyStyle) (only parsing).

Implicit Types (text res : jsstring) (pos : nat) (info : SkipInfo).

Lemma advance_found text surface piece res pos startPos :
  indexOf text surface pos = Some startPos ->
  FuriganaProcessorPrototype.advance text surface piece (res, Z.of_nat pos)
  = (FuriganaProcessor.withGap text {| result := res; currentPos := pos |}
       startPos ++ piece,
     Z.of_nat (startPos + length surface)).
Proof.
  intros Hfind.
  unfold FuriganaProcessorPrototype.advance,
    FuriganaProcessorPrototype.indexOfNumber, FuriganaProcessor.withGap.
  rewrite Nat2Z.id, Hfind. cbn [result currentPos].
  rewrite !Nat2Z.id, Nat2Z.inj_add. f_equal.
  destruct (Z.ltb_spec (Z.of_nat pos) (Z.of_nat startPos)),
    (Nat.ltb_spec pos startPos); try lia; done.
Qed.

Lemma withRest_same text res pos :
  FuriganaProcessorPrototype.withRest text (res, Z.of_nat pos)
  = FuriganaProcessor.withRest text {| result := res; currentPos := pos |}.
Proof.
  unfold FuriganaProcessorPrototype.withRest, FuriganaProcessor.withRest.
  cbn [result currentPos]. rewrite Nat2Z.id.
  destruct (Z.ltb_spec (Z.of_nat pos) (Z.of_nat (length text))),
    (Nat.ltb_spec pos (length text)); try lia; done.
Qed.

Lemma subword_loop_same wordSurface subs res pos info :
  allFound wordSurface pos (SubWord.surface <$> subs) = true ->
  foldl (current FuriganaProcessorPrototype.subwordStep wordSurface)
    (res, Z.of_nat pos, info) subs
  = (let '(cur, info') :=
       foldl (current FuriganaProcessor.subwordStep wordSurface)
         ({| result := res; currentPos := pos |}, info) subs in
     (result cur, Z.of_nat (currentPos cur), info')).
Proof.
  revert res pos info; induction subs as [|sub subs IH];
    intros res pos info Hfound; [done|].
  cbn [fmap list_fmap allFound] in Hfound.
  destruct (indexOf wordSurface (SubWord.surface sub) pos) as [startPos|]
    eqn:Hfind; [|done].
  cbn [foldl].
  unfold FuriganaProcessorPrototype.subwordStep at 2,
    FuriganaProcessor.subwordStep at 2.
  cbn [currentPos]. rewrite Hfind.
  destruct (match reading (SubWord.furigana sub) with
            | Some furigana =>
                FuriganaProcessor.glossOrSkip skipLength rubyStyle info
                  (SubWord.surface sub) furigana
            | None => (SubWord.surface sub, info)
            end) as [piece info'].
  rewrite (advance_found _ _ _ _ _ _ Hfind). by apply IH.
Qed.

Lemma applyRubyToWord_same info word :
  subwordsFound word = true ->
  current FuriganaProcessorPrototype.applyRubyToWord info word
  = current FuriganaProcessor.applyRubyToWord info word.
Proof.
  unfold subwordsFound, FuriganaProcessorPrototype.applyRubyToWord,
    FuriganaProcessor.applyRubyToWord.
  intros Hfound. destruct (reading (furigana word)); [|done].
  destruct (subword word) as [[|sub subs]|]; [done| |done].
  change (allFound (surface word) 0 (SubWord.surface <$> sub :: subs) = true)
    in Hfound.
  change 0%Z with (Z.of_nat 0). rewrite (subword_loop_same _ _ [] 0 info Hfound).
  destruct (foldl _ _ _) as [[res pos] info']. by rewrite withRest_same.
Qed.

Lemma word_loop_same originalText words res pos info :
  allFound originalText pos (surface <$> words) = true ->
  Forall (fun word => subwordsFound word = true) words ->
  foldl (current FuriganaProcessorPrototype.wordStep originalText)
    (res, Z.of_nat pos, info) words
  = (let '(cur, info') :=
       foldl (current FuriganaProcessor.wordStep originalText)
         ({| result := res; currentPos := pos |}, info) words in
     (result cur, Z.of_nat (currentPos cur), info')).
Proof.
  intros Hfound Hsubs. revert res pos info Hfound;
    induction Hsubs as [|word words Hword _ IH]; intros res pos info Hfound;
    [done|].
  cbn [fmap list_fmap allFound] in Hfound.
  destruct (indexOf originalText (surface word) pos) as [startPos|]
    eqn:Hfind; [|done].
  cbn [foldl].
  unfold FuriganaProcessorPrototype.wordStep at 2,
    FuriganaProcessor.wordStep at 2.
  rewrite (applyRubyToWord_same _ _ Hword).
  destruct (FuriganaProcessor.applyRubyToWord skipLength rubyStyle info word)
    as [processedWord info'].
  cbn [currentPos]. rewrite Hfind, (advance_found _ _ _ _ _ _ Hfind).
  by apply IH.
Qed.

(** The earlier copy of the merge gives the result of the current one,
    output and skip table, whenever every word of the answer is found in the
    chunk and every subword in its word: the copies differ on misses only. *)
Theorem copies_agree_without_miss info words originalText :
  allFound originalText 0 (surface <$> words) = true ->
  Forall (fun word => subwordsFound word = true) words ->
  current FuriganaProcessorPrototype.applyRubyFromResponse info words
    originalText
  = current FuriganaProcessor.applyRubyFromResponse info words originalText.
Proof.
  intros Hfound Hsubs.
  unfold FuriganaProcessorPrototype.applyRubyFromResponse,
    FuriganaProcessor.applyRubyFromResponse.
  change 0%Z with (Z.of_nat 0).
  rewrite (word_loop_same _ _ [] 0 info Hfound Hsubs).
  destruct (foldl _ _ _) as [[res pos] info']. by rewrite withRest_same.
Qed.

End Copies.

(** The answer of the stand-in service for 山と川. *)
Lemma copies_agree_witness :
  FuriganaProcessorPrototype.applyRubyFromResponse 3 InkBracket ∅
    (annotateWith dictionary 0 (js "山と川")) (js "山と川")
  = FuriganaProcessor.applyRubyFromResponse 3 InkBracket ∅
      (annotateWith dictionary 0 (js "山と川")) (js "山と川").
Proof.
  apply copies_agree_without_miss.
  - reflexivity.
  - repeat constructor.
Defined.

(** * The route and the clients *)

Section SameAnswers.

Import FuriganaProcessor.

Variable clientId : jsstring.
Variable skipLength : Z.
Variable grade : N.
Variable rubyStyle : RubyStyle.
Variables service1 service2 :
  nat -> jsstring -> jsstring -> N -> option (list Word).

Local Abbreviation run1 f := (f clientId skipLength grade rubyStyle service1).
Local Abbreviation run2 f := (f clientId skipLength grade rubyStyle service2).

(** The services answer alike whenever the text is not blank. *)
Hypothesis same_answers : forall n text,
  trimIsEmpty text = false ->
  service1 n text clientId grade = service2 n text clientId grade.

Lemma tryProcessChunk_same_answers acc text :
  run1 tryProcessChunk acc text = run2 tryProcessChunk acc text.
Proof.
  destruct acc as [result this]. unfold tryProcessChunk, processChunk.
  destruct (trimIsEmpty text) eqn:Hblank; [done|].
  by rewrite same_answers.
Qed.

Lemma processParts_same_answers parts acc :
  run1 processParts acc parts = run2 processParts acc parts.
Proof.
  revert acc; induction parts as [|part parts IH]; intros acc; [done|].
  cbn [processParts]. rewrite tryProcessChunk_same_answers.
  destruct parts; [done | apply IH].
Qed.

Lemma process_same_answers this text :
  run1 process this text = run2 process this text.
Proof.
  unfold process, processChunks. generalize ([] : jsstring, this).
  induction (FuriganaApi.splitTextIntoChunks text FuriganaApi.defaultMaxLength)
    as [|chunk chunks IH]; intros acc; [done|].
  cbn [foldl]. rewrite <- IH. f_equal. unfold chunkStep.
  destruct (includes chunk pageBreak);
    [apply processParts_same_answers | apply tryProcessChunk_same_answers].
Qed.

End SameAnswers.

Section Clients.

Import FuriganaProcessor.

Variable yahoo : nat -> Yahoo.Request -> Yahoo.Outcome.
Variable skipLength : Z.
Variable grade : N.
Variable rubyStyle : RubyStyle.

Lemma trimIsEmpty_nil text : trimIsEmpty text = false -> text <> [].
Proof. by intros Hblank ->. Qed.

Lemma handler_post text clientId gradeNumber :
  text <> [] -> clientId <> [] ->
  ApiRoute.handler
    {| ApiRoute.method := js "POST";
       ApiRoute.body := {| ApiRoute.text := Some text;
                           ApiRoute.clientId := Some clientId;
                           ApiRoute.grade := Some gradeNumber |} |}
  = ApiRoute.CallYahoo
      {| Yahoo.q := text; Yahoo.grade := gradeNumber;
         Yahoo.userAgent := Yahoo.appId clientId |}
      ApiRoute.afterYahoo.
Proof.
  intros Htext Hid. destruct text; [done|]. destruct clientId; [done|].
  reflexivity.
Qed.

Lemma service_through_route n text clientId :
  text <> [] -> clientId <> [] ->
  FetchClient.service yahoo n text clientId grade
  = match yahoo n {| Yahoo.q := text; Yahoo.grade := Z.of_N grade;
                     Yahoo.userAgent := Yahoo.appId clientId |} with
    | Yahoo.Resolved data => Yahoo.word data
    | _ => None
    end.
Proof.
  intros Htext Hid.
  unfold FetchClient.service, FetchClient.requestFurigana, ApiRoute.serve.
  rewrite handler_post by done.
  destruct (yahoo n _) as [data|statusCode| |message].
  - change (FetchClient.resultWord (ApiRoute.Success (Yahoo.word data))
            = Yahoo.word data).
    by destruct (Yahoo.word data).
  - by destruct (FetchClient.ok _).
  - reflexivity.
  - reflexivity.
Qed.

Lemma service_without_client_id n text :
  text <> [] -> FetchClient.service yahoo n text [] grade = None.
Proof.
  intros Htext. destruct text; [done|]. by vm_compute.
Qed.

(** With an empty client id the text comes back as it is, whatever the Yahoo
    service would answer: the route turns every chunk down and the processor
    keeps the chunk. *)
Theorem empty_client_id_changes_nothing this text :
  fst (process [] skipLength grade rubyStyle (FetchClient.service yahoo)
         this text) = text.
Proof.
  unfold process. rewrite processChunks_raw.
  - apply splitTextIntoChunks_round_trip.
  - intros [result that] chunk. unfold tryProcessChunk, processChunk.
    destruct (trimIsEmpty chunk) eqn:Hblank; [done|].
    by rewrite service_without_client_id by (by apply trimIsEmpty_nil).
Qed.

(** A processor that reaches the Yahoo service through the route gives the
    result, output and state, of one that posts to the service itself,
    provided the client id is not empty and no answer of the service holds
    both an error and words. *)
Theorem route_is_transparent clientId this text :
  clientId <> [] ->
  (forall n request data,
     yahoo n request = Yahoo.Resolved data ->
     Yahoo.hasError data = true -> Yahoo.word data = None) ->
  process clientId skipLength grade rubyStyle (FetchClient.service yahoo)
    this text
  = process clientId skipLength grade rubyStyle (AxiosClient.service yahoo)
      this text.
Proof.
  intros Hid Herror. apply process_same_answers. intros n chunk Hblank.
  rewrite service_through_route; [|by apply trimIsEmpty_nil|done].
  unfold AxiosClient.service, AxiosClient.requestFurigana.
  destruct (yahoo n _) as [data| | |] eqn:Hanswer; try done.
  destruct (Yahoo.hasError data) eqn:Hdata; [by eapply Herror | done].
Qed.

End Clients.

(** The dictionary service behind the route, for 山と川. *)
Lemma route_is_transparent_witness :
  FuriganaProcessor.process (js "app") 3 1%N InkBracket
    (FetchClient.service dictionaryYahoo) FuriganaProcessor.new (js "山と川")
  = FuriganaProcessor.process (js "app") 3 1%N InkBracket
      (AxiosClient.service dictionaryYahoo) FuriganaProcessor.new (js "山と川").
Proof.
  apply route_is_transparent.
  - discriminate.
  - intros n request data [= <-]. discriminate.
Defined.

(** * The size of what is sent *)

Section RequestBudget.

Import FuriganaProcessor.

Variable clientId : jsstring.
Variable skipLength : Z.
Variable grade : N.
Variable rubyStyle : RubyStyle.
Variable requestFurigana : nat -> jsstring -> jsstring -> N -> option (list Word).

Local Abbreviation run f :=
  (f clientId skipLength grade rubyStyle requestFurigana).

Implicit Types (acc : jsstring * Processor) (text chunk part : jsstring).

(** A text that can be sent: not blank, and within the default maximum. *)
Local Abbreviation sendable :=
  (Forall (fun sent => trimIsEmpty sent = false
                       /\ (byteLength sent <= FuriganaApi.defaultMaxLength)%Z)).

Lemma byteLength_liesIn part chunk :
  liesIn part chunk -> (byteLength part <= byteLength chunk)%Z.
Proof.
  intros (before & after & ->). rewrite !byteLength_app.
  pose proof (byteLength_nonneg before). pose proof (byteLength_nonneg after).
  lia.
Qed.

Lemma tryProcessChunk_sendable acc text :
  (byteLength text <= FuriganaApi.defaultMaxLength)%Z ->
  sendable (requests (snd acc)) ->
  sendable (requests (snd (run tryProcessChunk acc text))).
Proof.
  destruct acc as [result this]. intros Htext Hlog.
  unfold tryProcessChunk, processChunk.
  destruct (trimIsEmpty text) eqn:Hblank; [done|].
  assert (sendable (requests this ++ [text])) as Hsent.
  { apply Forall_app. split; [done|]. by constructor. }
  destruct (requestFurigana _ _ _ _) as [words|]; [|done].
  by destruct (applyRubyFromResponse _ _ _ _ _).
Qed.

Lemma processParts_sendable parts acc :
  Forall (fun part => (byteLength part <= FuriganaApi.defaultMaxLength)%Z)
    parts ->
  sendable (requests (snd acc)) ->
  sendable (requests (snd (run processParts acc parts))).
Proof.
  intros Hparts. revert acc;
    induction Hparts as [|part parts Hpart _ IH]; intros acc Hlog; [done|].
  assert (sendable (requests (snd (run processParts acc [part])))) as Hfirst.
  { rewrite processParts_last.
    destruct (truthy part); [by apply tryProcessChunk_sendable | done]. }
  destruct parts as [|next rest]; [done|].
  rewrite processParts_cons. apply IH.
  by destruct (run processParts acc [part]).
Qed.

Lemma chunkStep_sendable acc chunk :
  (byteLength chunk <= FuriganaApi.defaultMaxLength)%Z ->
  sendable (requests (snd acc)) ->
  sendable (requests (snd (run chunkStep acc chunk))).
Proof.
  intros Hchunk Hlog. unfold chunkStep.
  destruct (includes chunk pageBreak); [|by apply tryProcessChunk_sendable].
  apply processParts_sendable; [|done].
  apply Forall_forall. intros part Hin.
  etrans; [|exact Hchunk]. apply byteLength_liesIn.
  rewrite <- (join_split chunk pageBreak) by done.
  by apply liesIn_join.
Qed.

Lemma processChunks_sendable chunks acc :
  Forall (fun chunk => chunk <> []
                       /\ (byteLength chunk <= FuriganaApi.defaultMaxLength)%Z)
    chunks ->
  sendable (requests (snd acc)) ->
  sendable (requests (snd (run processChunks acc chunks))).
Proof.
  intros Hchunks. revert acc;
    induction Hchunks as [|chunk chunks [_ Hchunk] _ IH]; intros acc Hlog;
    [done|].
  apply IH. by apply chunkStep_sendable.
Qed.

(** Every text that a run sends to the service is within the 4000 bytes of
    the default maximum, counted as the splitter counts them, and none is
    blank. *)
Theorem requests_within_budget text :
  Forall (fun sent => trimIsEmpty sent = false
                      /\ (byteLength sent <= 4000)%Z)
    (requests (snd (run process new text))).
Proof.
  apply processChunks_sendable; [by apply chunks_fit | constructor].
Qed.

End RequestBudget.

(** * A page break inside one chunk *)

Section PageBreakInOneChunk.

Import FuriganaProcessor.

Variable clientId : jsstring.
Variable skipLength : Z.
Variable grade : N.
Variable rubyStyle : RubyStyle.
Variable requestFurigana : nat -> jsstring -> jsstring -> N -> option (list Word).

Local Abbreviation run f :=
  (f clientId skipLength grade rubyStyle requestFurigana).

Lemma one_chunk text :
  text <> [] ->
  (byteLength text <= FuriganaApi.defaultMaxLength)%Z ->
  FuriganaApi.splitTextIntoChunks text FuriganaApi.defaultMaxLength = [text].
Proof.
  intros Htext Hfits. unfold FuriganaApi.splitTextIntoChunks.
  rewrite splitLoop_fits by (simpl; lia).
  unfold FuriganaApi.finish. cbn [FuriganaApi.chunks FuriganaApi.currentChunk].
  by destruct text.
Qed.

(** When the text fits one chunk, a run crosses every marker in it with a
    reset: with any text [before] a marker and any text [after] it, the run
    is the parts of [before], then the marker added to the result and the
    skip table replaced by an empty one, then the parts of [after] from that
    state. *)
Theorem page_break_in_one_chunk_resets this before after :
  (byteLength (before ++ pageBreak ++ after) <= 4000)%Z ->
  let atBreak :=
    crossPageBreak (run processParts ([], this) (split before pageBreak)) in
  run process this (before ++ pageBreak ++ after)
  = run processParts atBreak (split after pageBreak)
  /\ fst atBreak
     = fst (run processParts ([], this) (split before pageBreak)) ++ pageBreak
  /\ skipInfo (snd atBreak) = ∅.
Proof.
  intros Hfits atBreak.
  destruct (page_break_resets_skip_table clientId skipLength grade rubyStyle
              requestFurigana ([], this) before after)
    as (Hstep & Hresult & Hempty & _).
  split; [|by split].
  unfold process. rewrite one_chunk; [exact Hstep| |exact Hfits].
  by destruct before.
Qed.

End PageBreakInOneChunk.

(** 漢 glossed right before the marker and again right after it. *)
Lemma page_break_in_one_chunk_witness :
  let before := js "漢" in
  let after := js "漢" in
  let atBreak :=
    FuriganaProcessor.crossPageBreak
      (FuriganaProcessor.processParts (js "id") 10 1 InkBracket mockService
         ([], FuriganaProcessor.new) (split before pageBreak)) in
  FuriganaProcessor.process (js "id") 10 1 InkBracket mockService
    FuriganaProcessor.new (before ++ pageBreak ++ after)
  = FuriganaProcessor.processParts (js "id") 10 1 InkBracket mockService
      atBreak (split after pageBreak)
  /\ fst atBreak
     = fst (FuriganaProcessor.processParts (js "id") 10 1 InkBracket
              mockService ([], FuriganaProcessor.new)
              (split before pageBreak)) ++ pageBreak
  /\ skipInfo (snd atBreak) = ∅.
Proof.
  apply (page_break_in_one_chunk_resets (js "id") 10 1%N InkBracket mockService
           FuriganaProcessor.new (js "漢") (js "漢")).
  vm_compute. discriminate.
Defined.
